(** * personal-vault: a shallow embedding of the vault core

    The development follows the Go sources of the repository:
    - [internal/vault] (field identifiers, scope grammar, session, vault core),
    - [internal/store] (the four SQLite tables and their statements),
    - [internal/crypto] (key derivation and the AEAD envelope),
    - [internal/api] (the request gate and the route handlers).

    Go strings are modelled as [string] (sequences of 8-bit characters) and
    byte slices as [list byte].  The SQLite tables with a primary key are
    finite maps; the audit table keeps its rows in insertion order. *)

From Stdlib Require Import ZArith Lia Bool List Ascii String.
From Stdlib Require Import Strings.Byte.
From stdpp Require Import gmap strings list fin_maps sorting.

Import ListNotations.
Local Open Scope string_scope.
Local Open Scope list_scope.

(** ** Go's [strings] package, as far as the sources use it *)

Module strings.

(** [strings.HasPrefix(s, prefix)]. *)
Definition HasPrefix (s pre : string) : bool := String.prefix pre s.

(** The last [n] bytes of [s] (all of [s] when it is shorter). *)
Definition last_bytes (n : nat) (s : string) : string :=
  String.substring (String.length s - n) n s.

(** [strings.HasSuffix(s, suffix)]. *)
Definition HasSuffix (s suf : string) : bool :=
  (String.length suf <=? String.length s)%nat
  && String.eqb (last_bytes (String.length suf) s) suf.

(** [strings.TrimSuffix(s, suffix)]: [s] without the trailing [suffix],
    [s] itself when it does not end with it. *)
Definition TrimSuffix (s suf : string) : string :=
  if HasSuffix s suf
  then String.substring 0 (String.length s - String.length suf) s
  else s.

(** [strings.TrimPrefix(s, prefix)]. *)
Definition TrimPrefix (s pre : string) : string :=
  if HasPrefix s pre
  then String.substring (String.length pre) (String.length s - String.length pre) s
  else s.

(** [strings.Cut(s, sep)] for a one-byte separator: the text before and
    after the first occurrence of [sep]. *)
Fixpoint Cut (s : string) (sep : ascii) : option (string * string) :=
  match s with
  | EmptyString => None
  | String a rest =>
      if Ascii.eqb a sep then Some (EmptyString, rest)
      else match Cut rest sep with
           | Some (before, after) => Some (String a before, after)
           | None => None
           end
  end.

(** [strings.SplitN(s, sep, n)] for a one-byte separator and [n >= 0]:
    at most [n] pieces, the last one being the unsplit remainder. *)
Fixpoint SplitN (s : string) (sep : ascii) (n : nat) : list string :=
  match n with
  | O => []
  | S O => [s]
  | S n' =>
      match Cut s sep with
      | None => [s]
      | Some (before, after) => before :: SplitN after sep n'
      end
  end.

(** [strings.Split(s, sep)] for a one-byte separator: every piece between
    two separators; the empty string yields one empty piece. *)
Fixpoint Split (s : string) (sep : ascii) : list string :=
  match s with
  | EmptyString => [EmptyString]
  | String a rest =>
      if Ascii.eqb a sep then EmptyString :: Split rest sep
      else match Split rest sep with
           | piece :: pieces => String a piece :: pieces
           | [] => [String a EmptyString]
           end
  end.

(** The white space [strings.TrimSpace] removes, restricted to one-byte
    characters: tab, line feed, vertical tab, form feed, carriage return
    and space.  (Go also strips the multi-byte Unicode spaces; a string
    that starts or ends with one of those is outside this model.) *)
Definition isSpace (c : ascii) : bool :=
  let n := nat_of_ascii c in
  ((9 <=? n)%nat && (n <=? 13)%nat) || (n =? 32)%nat.

Fixpoint TrimLeft (s : string) : string :=
  match s with
  | EmptyString => EmptyString
  | String a rest => if isSpace a then TrimLeft rest else s
  end.

(** Drops trailing white space: a character is kept when something
    non-blank follows it or it is not blank itself. *)
Fixpoint TrimRight (s : string) : string :=
  match s with
  | EmptyString => EmptyString
  | String a rest =>
      match TrimRight rest with
      | EmptyString => if isSpace a then EmptyString else String a EmptyString
      | kept => String a kept
      end
  end.

(** [strings.TrimSpace(s)]. *)
Definition TrimSpace (s : string) : string := TrimRight (TrimLeft s).

End strings.

(** ** Field identifiers and the scope grammar ([internal/vault]) *)

(** The errors of the vault core.  The sentinel errors keep their Go names;
    the [fmt.Errorf] errors carry the text they interpolate. *)
Inductive error : Type :=
| ErrLocked
| ErrAlreadyUnlocked
| ErrNotInitialized
| ErrAlreadyInit
| ErrWrongPassword
| ErrInvalidTier
| ErrFieldIDShape (id : string)
| ErrInvalidCategory (category : string)
| ErrInvalidFieldName (name : string)
| ErrDecode (what : string)
| ErrCrypto (what : string)
| ErrStore (what : string).

Definition dot : ascii := "."%char.
Definition comma : ascii := ","%char.

(** One character of the class [[a-zA-Z0-9_-]]. *)
Definition idChar (c : ascii) : bool :=
  let n := nat_of_ascii c in
  ((97 <=? n)%nat && (n <=? 122)%nat)
  || ((65 <=? n)%nat && (n <=? 90)%nat)
  || ((48 <=? n)%nat && (n <=? 57)%nat)
  || (n =? 95)%nat || (n =? 45)%nat.

Fixpoint allChars (p : ascii -> bool) (s : string) : bool :=
  match s with
  | EmptyString => true
  | String a rest => p a && allChars p rest
  end.

(** [validIDPart.MatchString(s)] for the pattern [^[a-zA-Z0-9_-]+$]. *)
Definition validIDPart (s : string) : bool :=
  negb (String.eqb s "") && allChars idChar s.

(** [ValidateFieldID]: [None] is Go's [nil]. *)
Definition ValidateFieldID (id : string) : option error :=
  match strings.SplitN id dot 2 with
  | [category; name] =>
      if String.eqb category "" || String.eqb name "" then Some (ErrFieldIDShape id)
      else if negb (validIDPart category) then Some (ErrInvalidCategory category)
      else if negb (validIDPart name) then Some (ErrInvalidFieldName name)
      else None
  | _ => Some (ErrFieldIDShape id)
  end.

(** [ValidCategoryName]. *)
Definition ValidCategoryName (name : string) : bool :=
  negb (String.eqb name "") && validIDPart name.

(** One round of the loop of [ScopeAllows]: [Some b] returns [b], [None]
    goes on with the next pattern. *)
Definition scopeStep (fieldID p0 : string) : option bool :=
  let p := strings.TrimSpace p0 in
  if String.eqb p "*" then Some true
  else if strings.HasSuffix p ".*" then
    let category := strings.TrimSuffix p ".*" in
    if strings.HasPrefix fieldID (category ++ ".") then Some true else None
  else if String.eqb p fieldID then Some true
  else None.

Fixpoint scopeLoop (step : string -> option bool) (ps : list string) : bool :=
  match ps with
  | [] => false
  | p :: rest =>
      match step p with
      | Some b => b
      | None => scopeLoop step rest
      end
  end.

(** [ScopeAllows(scope, fieldID)]. *)
Definition ScopeAllows (scope fieldID : string) : bool :=
  scopeLoop (scopeStep fieldID) (strings.Split scope comma).

(** One round of the loop of [ScopeAllowsCategory]. *)
Definition scopeCategoryStep (category p0 : string) : option bool :=
  let p := strings.TrimSpace p0 in
  if String.eqb p "*" then Some true
  else if strings.HasSuffix p ".*" then
    if String.eqb (strings.TrimSuffix p ".*") category then Some true else None
  else if strings.HasPrefix p (category ++ ".") then Some true
  else None.

(** [ScopeAllowsCategory(scope, category)]. *)
Definition ScopeAllowsCategory (scope category : string) : bool :=
  scopeLoop (scopeCategoryStep category) (strings.Split scope comma).

(** *** The grammar as the specification words it

    These definitions follow the wording of the specification, not the
    code; the theorems below compare them with [ScopeAllows]. *)

(** The prefix of an identifier before its first ['.'] (the whole text when
    it has none). *)
Definition prefixBeforeDot (id : string) : string :=
  match strings.Cut id dot with
  | Some (before, _) => before
  | None => id
  end.

(** The category of a pattern of the form [category.*]. *)
Definition categoryPattern (p : string) : option string :=
  if strings.HasSuffix p ".*"
  then Some (String.substring 0 (String.length p - 2) p)
  else None.

(** A single pattern matches an identifier. *)
Definition patternMatches (p id : string) : bool :=
  if String.eqb p "*" then true
  else match categoryPattern p with
       | Some category => String.eqb (prefixBeforeDot id) category
       | None => String.eqb p id
       end.


(** A text without any dot. *)
Definition noDot (s : string) : bool := allChars (fun c => negb (Ascii.eqb c dot)) s.

(** ** The environment: randomness and the wall clock

    [crypto/rand] and [time.Now] are the two sources of non-determinism of
    the core.  Both are modelled as tapes fixed in advance, with a cursor
    that every read advances; a run is then a function of its tapes. *)

Record Rand := { randTape : nat -> byte; randPos : nat }.

(** [rand.Read(b)] for a buffer of [n] bytes. *)
Definition rand_Read (n : nat) (r : Rand) : list byte * Rand :=
  (map (randTape r) (seq (randPos r) n),
   {| randTape := randTape r; randPos := randPos r + n |}).

(** Times are nanoseconds since the Unix epoch. *)
Record Clock := { clockTape : nat -> Z; clockPos : nat }.

(** [time.Now()]. *)
Definition time_Now (c : Clock) : Z * Clock :=
  (clockTape c (clockPos c), {| clockTape := clockTape c; clockPos := S (clockPos c) |}).

Definition second : Z := 1000000000.

(** The zero [time.Time] (January 1, year 1, UTC). *)
Definition zeroTime : Z := (-62135596800) * second.

(** A time as the store keeps it: [t.UTC().Format(time.RFC3339)] has second
    precision, and [time.Parse] reads the text back as that second.  The
    text column is represented by the time it parses back to. *)
Definition RFC3339 (t : Z) : Z := (t / second) * second.

(** Results of fallible calls: Go's [(value, error)] pairs. *)
Inductive result (A : Type) : Type :=
| Ok (a : A)
| Err (e : error).
Arguments Ok {A} a.
Arguments Err {A} e.

(** ** [encoding/hex] *)

Module hex.

Definition hextable : string := "0123456789abcdef".

Definition digit (n : N) : ascii :=
  match String.get (N.to_nat n) hextable with
  | Some c => c
  | None => "0"%char
  end.

(** [hex.EncodeToString]: two lower-case digits per byte. *)
Fixpoint EncodeToString (src : list byte) : string :=
  match src with
  | [] => EmptyString
  | b :: rest =>
      String (digit (Byte.to_N b / 16)) (String (digit (Byte.to_N b mod 16))
        (EncodeToString rest))
  end.

(** [fromHexChar]: digits and letters of either case. *)
Definition fromHexChar (c : ascii) : option N :=
  let n := N_of_ascii c in
  if (48 <=? n)%N && (n <=? 57)%N then Some (n - 48)%N
  else if (97 <=? n)%N && (n <=? 102)%N then Some (n - 97 + 10)%N
  else if (65 <=? n)%N && (n <=? 70)%N then Some (n - 65 + 10)%N
  else None.

Definition byteOf (n : N) : byte :=
  match Byte.of_N n with
  | Some b => b
  | None => x00
  end.

(** [hex.DecodeString]: [None] for an odd length or a character that is
    no hexadecimal digit. *)
Fixpoint DecodeString (s : string) : option (list byte) :=
  match s with
  | EmptyString => Some []
  | String _ EmptyString => None
  | String a (String b rest) =>
      match fromHexChar a, fromHexChar b, DecodeString rest with
      | Some hi, Some lo, Some bytes => Some (byteOf (hi * 16 + lo) :: bytes)
      | _, _, _ => None
      end
  end.

End hex.

(** ** [crypto/subtle] *)

Module subtle.

Definition byteZ (b : byte) : Z := Z.of_N (Byte.to_N b).

(** [ConstantTimeByteEq(x, y)]: [int((uint32(x^y) - 1) >> 31)]. *)
Definition ConstantTimeByteEq (x y : Z) : Z :=
  Z.shiftr ((Z.lxor x y - 1) mod 2 ^ 32) 31.

(** The loop [v |= x[i] ^ y[i]] over two slices of one length. *)
Fixpoint xorFold (v : Z) (x y : list byte) : Z :=
  match x, y with
  | a :: x', b :: y' => xorFold (Z.lor v (Z.lxor (byteZ a) (byteZ b))) x' y'
  | _, _ => v
  end.

(** [subtle.ConstantTimeCompare(x, y)]: 1 when the slices are equal, 0
    otherwise (and at once when their lengths differ). *)
Definition ConstantTimeCompare (x y : list byte) : Z :=
  if negb (length x =? length y)%nat then 0
  else ConstantTimeByteEq (xorFold 0 x y) 0.

End subtle.

(** ** The cryptographic primitives

    Argon2id, HKDF-SHA256, AES-256-GCM, SHA-256 and base-64 come from Go's
    libraries.  The core is generic in them; what it relies on is stated as
    the laws of this interface. *)

Class Primitives := {
  (** [sha256.Sum256]. *)
  sha256_Sum256 : list byte -> list byte;
  (** [argon2.IDKey(password, salt, time, memory, threads, keyLen)]. *)
  argon2_IDKey : list byte -> list byte -> Z -> Z -> Z -> nat -> list byte;
  (** [io.ReadFull(hkdf.New(sha256.New, secret, salt, info), out)] for an
      output of the given length; [None] when the stream ends early. *)
  hkdf_Read : list byte -> list byte -> list byte -> nat -> option (list byte);
  (** [aead.Seal(nil, nonce, plaintext, nil)] of AES-GCM under a key. *)
  gcm_Seal : list byte -> list byte -> list byte -> list byte;
  (** [aead.Open(nil, nonce, ciphertext, nil)]; [None] is an
      authentication failure. *)
  gcm_Open : list byte -> list byte -> list byte -> option (list byte);
  (** [base64.StdEncoding]. *)
  base64_EncodeToString : list byte -> string;
  base64_DecodeString : string -> option (list byte);

  sha256_size : forall m, length (sha256_Sum256 m) = 32%nat;
  argon2_size : forall p s t m th n, length (argon2_IDKey p s t m th n) = n;
  hkdf_size : forall secret salt info n, (n <= 255 * 32)%nat ->
    exists out, hkdf_Read secret salt info n = Some out /\ length out = n;
  gcm_Seal_size : forall key nonce pt,
    length (gcm_Seal key nonce pt) = (length pt + 16)%nat;
  gcm_Open_Seal : forall key nonce pt,
    gcm_Open key nonce (gcm_Seal key nonce pt) = Some pt;
  base64_roundtrip : forall b,
    base64_DecodeString (base64_EncodeToString b) = Some b
}.

(** ** [internal/crypto] *)

Module crypto.
Section crypto.
Context `{P : Primitives}.

Definition argonTime : Z := 3.
Definition argonMemory : Z := 64 * 1024.
Definition argonThreads : Z := 1.
Definition keyLen : nat := 32.
Definition saltLen : nat := 32.
Definition secretKeyLen : nat := 16.
Definition nonceLen : nat := 12.

(** [DeriveVaultKey]: Argon2id over [password || secretKey]. *)
Definition DeriveVaultKey (password secretKey salt : list byte) : list byte :=
  argon2_IDKey (password ++ secretKey) salt argonTime argonMemory argonThreads keyLen.

Definition GenerateSalt (r : Rand) : list byte * Rand := rand_Read saltLen r.
Definition GenerateSecretKey (r : Rand) : list byte * Rand := rand_Read secretKeyLen r.

(** [HashSecretKey]. *)
Definition HashSecretKey (secretKey : list byte) : list byte := sha256_Sum256 secretKey.

(** [DeriveSubkey]: HKDF-SHA256 with the category as info. *)
Definition DeriveSubkey (vaultKey salt : list byte) (category : string)
  : result (list byte) :=
  match hkdf_Read vaultKey salt (list_byte_of_string category) keyLen with
  | Some subkey => Ok subkey
  | None => Err (ErrCrypto ("deriving subkey for " ++ category))
  end.

(** [aes.NewCipher] accepts keys of 16, 24 or 32 bytes. *)
Definition aesKeySize (n : nat) : bool :=
  (n =? 16)%nat || (n =? 24)%nat || (n =? 32)%nat.

(** [Encrypt]: [nonce || ciphertext+tag] under a fresh 12-byte nonce. *)
Definition Encrypt (key plaintext : list byte) (r : Rand) : result (list byte) * Rand :=
  if negb (aesKeySize (length key)) then (Err (ErrCrypto "creating cipher"), r)
  else
    let (nonce, r') := rand_Read nonceLen r in
    let ciphertext := gcm_Seal key nonce plaintext in
    (Ok (nonce ++ ciphertext), r').

(** [Decrypt]: expects [nonce || ciphertext+tag]. *)
Definition Decrypt (key data : list byte) : result (list byte) :=
  if (length data <? nonceLen + 1)%nat then Err (ErrCrypto "ciphertext too short")
  else if negb (aesKeySize (length key)) then Err (ErrCrypto "creating cipher")
  else
    let nonce := take nonceLen data in
    let ciphertext := drop nonceLen data in
    match gcm_Open key nonce ciphertext with
    | Some plaintext => Ok plaintext
    | None => Err (ErrCrypto "decryption failed")
    end.

(** [EncryptToBase64]. *)
Definition EncryptToBase64 (key plaintext : list byte) (r : Rand) : result string * Rand :=
  match Encrypt key plaintext r with
  | (Ok data, r') => (Ok (base64_EncodeToString data), r')
  | (Err e, r') => (Err e, r')
  end.

(** [DecryptFromBase64]. *)
Definition DecryptFromBase64 (key : list byte) (encoded : string) : result (list byte) :=
  match base64_DecodeString encoded with
  | Some data => Decrypt key data
  | None => Err (ErrDecode "decoding base64")
  end.

End crypto.
End crypto.

(** ** [internal/store]: the SQLite tables

    The tables with a primary key are finite maps from the key; the access
    log keeps its rows in insertion order.  Input/output failures of SQLite
    are outside the model: a statement fails only on a constraint of the
    schema. *)

Module store.

(** A row of [vault_fields]. *)
Record Field := {
  ID : string;
  Category : string;
  FieldName : string;
  Value : string;
  Sensitivity : string;
  UpdatedAt : Z;
  Version : Z
}.

(** A row of [vault_access_log]. *)
Record AuditEntry := {
  EntryID : string;
  Consumer : string;
  Scope : string;
  Action : string;
  Purpose : string;
  CreatedAt : Z
}.

(** A row of [vault_tokens]. *)
Record Token := {
  TokenStr : string;
  TokenConsumer : string;
  TokenScope : string;
  ExpiresAt : Z;
  Usage : string;
  TokenCreatedAt : Z
}.

Record DB := {
  vault_fields : gmap string Field;
  vault_access_log : list AuditEntry;
  vault_tokens : gmap string Token;
  vault_meta : gmap string string
}.

(** The database right after [Open] created its schema. *)
Definition empty : DB :=
  {| vault_fields := ∅; vault_access_log := []; vault_tokens := ∅; vault_meta := ∅ |}.

Definition with_fields (d : DB) (m : gmap string Field) : DB :=
  {| vault_fields := m; vault_access_log := vault_access_log d;
     vault_tokens := vault_tokens d; vault_meta := vault_meta d |}.

Definition with_log (d : DB) (l : list AuditEntry) : DB :=
  {| vault_fields := vault_fields d; vault_access_log := l;
     vault_tokens := vault_tokens d; vault_meta := vault_meta d |}.

Definition with_tokens (d : DB) (m : gmap string Token) : DB :=
  {| vault_fields := vault_fields d; vault_access_log := vault_access_log d;
     vault_tokens := m; vault_meta := vault_meta d |}.

Definition with_meta (d : DB) (m : gmap string string) : DB :=
  {| vault_fields := vault_fields d; vault_access_log := vault_access_log d;
     vault_tokens := vault_tokens d; vault_meta := m |}.

(** *** Metadata *)

(** [SetMeta]: upsert. *)
Definition SetMeta (key value : string) (d : DB) : DB :=
  with_meta d (<[key := value]> (vault_meta d)).

(** [GetMeta]: the empty string when the key is absent. *)
Definition GetMeta (key : string) (d : DB) : string :=
  default "" (vault_meta d !! key).

(** [IsInitialized]. *)
Definition IsInitialized (d : DB) : bool := negb (String.eqb (GetMeta "salt" d) "").

(** *** Fields *)

(** The row an upsert leaves: version 1 on insert; on conflict the value
    and the time are replaced, the sensitivity too unless the new one is
    empty, and the stored version grows by one. *)
Definition upsertRow (old : option Field) (f : Field) : Field :=
  match old with
  | None =>
      {| ID := ID f; Category := Category f; FieldName := FieldName f;
         Value := Value f; Sensitivity := Sensitivity f;
         UpdatedAt := RFC3339 (UpdatedAt f); Version := 1 |}
  | Some row =>
      {| ID := ID row; Category := Category row; FieldName := FieldName row;
         Value := Value f;
         Sensitivity := if negb (String.eqb (Sensitivity f) "")
                        then Sensitivity f else Sensitivity row;
         UpdatedAt := RFC3339 (UpdatedAt f);
         Version := Version row + 1 |}
  end.

(** [SetField]. *)
Definition SetField (f : Field) (d : DB) : DB :=
  with_fields d (<[ID f := upsertRow (vault_fields d !! ID f) f]> (vault_fields d)).

(** [GetField]: [None] is Go's [nil, nil]. *)
Definition GetField (id : string) (d : DB) : option Field := vault_fields d !! id.

Definition byCategoryThenName (f g : Field) : Prop :=
  String.ltb (Category f) (Category g) = true
  \/ (Category f = Category g /\ String.leb (FieldName f) (FieldName g) = true).

Definition byName (f g : Field) : Prop :=
  String.leb (FieldName f) (FieldName g) = true.

#[local] Instance byCategoryThenName_dec f g : Decision (byCategoryThenName f g).
Proof. unfold byCategoryThenName. apply _. Defined.

#[local] Instance byName_dec f g : Decision (byName f g).
Proof. unfold byName. apply _. Defined.

(** The rows of the table, [ORDER BY category, field_name]. *)
Definition GetAllFields (d : DB) : list Field :=
  merge_sort byCategoryThenName (snd <$> map_to_list (vault_fields d)).

(** The rows of one category, [ORDER BY field_name]. *)
Definition GetFieldsByCategory (category : string) (d : DB) : list Field :=
  merge_sort byName
    (filter (fun f => Category f = category) (snd <$> map_to_list (vault_fields d))).

(** The metadata queries select every column but [value]. *)
Definition withoutValue (f : Field) : Field :=
  {| ID := ID f; Category := Category f; FieldName := FieldName f;
     Value := ""; Sensitivity := Sensitivity f;
     UpdatedAt := UpdatedAt f; Version := Version f |}.

Definition ListFields (d : DB) : list Field := withoutValue <$> GetAllFields d.

Definition ListFieldsByCategory (category : string) (d : DB) : list Field :=
  withoutValue <$> GetFieldsByCategory category d.

(** [DeleteField]. *)
Definition DeleteField (id : string) (d : DB) : DB :=
  with_fields d (delete id (vault_fields d)).

(** [SetSensitivity]: an [UPDATE] of the tier and the time; no row, no
    change.  The version is left alone. *)
Definition SetSensitivity (id tier : string) (c : Clock) (d : DB) : DB * Clock :=
  let (now, c') := time_Now c in
  (with_fields d
     (alter (fun row =>
               {| ID := ID row; Category := Category row; FieldName := FieldName row;
                  Value := Value row; Sensitivity := tier;
                  UpdatedAt := RFC3339 now; Version := Version row |})
        id (vault_fields d)),
   c').

Definition FieldCount (d : DB) : nat := size (vault_fields d).

(** *** Tokens *)

(** [CreateToken]: an [INSERT]; a second row with the same key violates
    the primary key. *)
Definition CreateToken (t : Token) (d : DB) : option error * DB :=
  match vault_tokens d !! TokenStr t with
  | Some _ => (Some (ErrStore "UNIQUE constraint failed: vault_tokens.token"), d)
  | None =>
      let row := {| TokenStr := TokenStr t; TokenConsumer := TokenConsumer t;
                    TokenScope := TokenScope t; ExpiresAt := RFC3339 (ExpiresAt t);
                    Usage := Usage t; TokenCreatedAt := RFC3339 (TokenCreatedAt t) |} in
      (None, with_tokens d (<[TokenStr t := row]> (vault_tokens d)))
  end.

(** [GetToken]: absent and expired rows both read as [nil]. *)
Definition GetToken (token : string) (c : Clock) (d : DB) : option Token * Clock :=
  match vault_tokens d !! token with
  | Some t =>
      let (now, c') := time_Now c in
      (if (ExpiresAt t <? now)%Z then None else Some t, c')
  | None => (None, c)
  end.

(** [DeleteToken]: the number of rows deleted and the new table. *)
Definition DeleteToken (token : string) (d : DB) : Z * DB :=
  match vault_tokens d !! token with
  | Some _ => (1%Z, with_tokens d (delete token (vault_tokens d)))
  | None => (0%Z, d)
  end.

Definition newestFirst (t u : Token) : Prop := (TokenCreatedAt u <= TokenCreatedAt t)%Z.

#[local] Instance newestFirst_dec t u : Decision (newestFirst t u).
Proof. unfold newestFirst. apply _. Defined.

(** [ListTokensByUsage], [ORDER BY created_at DESC]. *)
Definition ListTokensByUsage (usage : string) (d : DB) : list Token :=
  merge_sort newestFirst
    (filter (fun t => Usage t = usage) (snd <$> map_to_list (vault_tokens d))).

(** *** The access log *)

(** [LogAccess]: fills in a random identifier and the current time when
    the caller left them out, then inserts; the identifier is the
    primary key of the table. *)
Definition LogAccess (entry : AuditEntry) (r : Rand) (c : Clock) (d : DB)
  : option error * DB * Rand * Clock :=
  let '(id, r') :=
    if String.eqb (EntryID entry) ""
    then let (b, r') := rand_Read 16 r in (hex.EncodeToString b, r')
    else (EntryID entry, r) in
  let '(created, c') :=
    if (CreatedAt entry =? zeroTime)%Z then time_Now c else (CreatedAt entry, c) in
  let row := {| EntryID := id; Consumer := Consumer entry; Scope := Scope entry;
                Action := Action entry; Purpose := Purpose entry;
                CreatedAt := RFC3339 created |} in
  if existsb (fun e => String.eqb (EntryID e) id) (vault_access_log d)
  then (Some (ErrStore "UNIQUE constraint failed: vault_access_log.id"), d, r', c')
  else (None, with_log d (vault_access_log d ++ [row]), r', c').

Definition newerEntry (e f : AuditEntry) : Prop := (CreatedAt f <= CreatedAt e)%Z.

#[local] Instance newerEntry_dec e f : Decision (newerEntry e f).
Proof. unfold newerEntry. apply _. Defined.

(** [GetAuditLog]: [ORDER BY created_at DESC LIMIT ?]; a negative limit
    is no limit in SQLite. *)
Definition GetAuditLog (limit : Z) (d : DB) : list AuditEntry :=
  let sorted := merge_sort newerEntry (vault_access_log d) in
  if (limit <? 0)%Z then sorted else take (Z.to_nat limit) sorted.

End store.

(** ** [internal/vault]: the session *)

Module vault.
Section vault.
Context `{P : Primitives}.

Definition defaultAutoLockDuration : Z := 30 * 60 * second.

(** The session object.  [vaultKey] is the byte slice ([None] is the nil
    slice); [timer] is the time left on the armed auto-lock timer ([None]
    is the nil timer).  The [lockFn] callback is [lockFn] below. *)
Record Session := {
  token : string;
  vaultKey : option (list byte);
  timer : option Z;
  ttl : Z
}.

(** [NewSession]: a random token, a copy of the key, the timer armed. *)
Definition NewSession (key : list byte) (r : Rand) : Session * Rand :=
  let (tokenBytes, r') := rand_Read 32 r in
  ({| token := hex.EncodeToString tokenBytes;
      vaultKey := Some key;
      timer := Some defaultAutoLockDuration;
      ttl := defaultAutoLockDuration |}, r').

Definition Token (s : Session) : string := token s.

(** [VaultKey]: a copy of the key, nil once the session is destroyed. *)
Definition VaultKey (s : Session) : option (list byte) := vaultKey s.

(** [Session.ValidateToken]. *)
Definition Session_ValidateToken (s : Session) (tok : string) : bool :=
  if String.eqb (token s) "" then false
  else (subtle.ConstantTimeCompare
          (list_byte_of_string (token s)) (list_byte_of_string tok) =? 1)%Z.

(** [Touch]: re-arms the timer unless it is nil. *)
Definition Touch (s : Session) : Session :=
  {| token := token s; vaultKey := vaultKey s;
     timer := match timer s with Some _ => Some (ttl s) | None => None end;
     ttl := ttl s |}.

(** The loop of [zeroKey]: every byte of the buffer is overwritten. *)
Definition zeroFill (s : Session) : Session :=
  {| token := token s; vaultKey := map (fun _ => x00) <$> vaultKey s;
     timer := timer s; ttl := ttl s |}.

(** [s.vaultKey = nil]. *)
Definition dropKey (s : Session) : Session :=
  {| token := token s; vaultKey := None; timer := timer s; ttl := ttl s |}.

(** [zeroKey]. *)
Definition zeroKey (s : Session) : Session := dropKey (zeroFill s).

(** [s.token = ""]. *)
Definition clearToken (s : Session) : Session :=
  {| token := ""; vaultKey := vaultKey s; timer := timer s; ttl := ttl s |}.

(** Stopping the timer and [s.timer = nil]. *)
Definition nilTimer (s : Session) : Session :=
  {| token := token s; vaultKey := vaultKey s; timer := None; ttl := ttl s |}.

(** [Destroy]. *)
Definition Destroy (s : Session) : Session := nilTimer (clearToken (zeroKey s)).

(** The part of [autoLock] that runs under the session's mutex; the
    callback [lockFn] follows it. *)
Definition autoLock (s : Session) : Session := nilTimer (clearToken (zeroKey s)).


(** ** [internal/vault]: the vault core *)

Definition validTiers (tier : string) : bool :=
  String.eqb tier "public" || String.eqb tier "standard"
  || String.eqb tier "sensitive" || String.eqb tier "critical".

(** The vault handle together with the world it acts on: the database,
    the session pointer ([None] is nil), the cached salt, and the two
    tapes of the environment. *)
Record Vault := {
  db : store.DB;
  session : option Session;
  salt : list byte;
  rand : Rand;
  clock : Clock
}.

Definition with_db (v : Vault) (d : store.DB) : Vault :=
  {| db := d; session := session v; salt := salt v; rand := rand v; clock := clock v |}.

Definition with_session (v : Vault) (s : option Session) : Vault :=
  {| db := db v; session := s; salt := salt v; rand := rand v; clock := clock v |}.

Definition with_salt (v : Vault) (b : list byte) : Vault :=
  {| db := db v; session := session v; salt := b; rand := rand v; clock := clock v |}.

Definition with_rand (v : Vault) (r : Rand) : Vault :=
  {| db := db v; session := session v; salt := salt v; rand := r; clock := clock v |}.

Definition with_clock (v : Vault) (c : Clock) : Vault :=
  {| db := db v; session := session v; salt := salt v; rand := rand v; clock := c |}.

(** [Open] on a database. *)
Definition Open (d : store.DB) (r : Rand) (c : Clock) : Vault :=
  {| db := d; session := None; salt := []; rand := r; clock := c |}.

(** [v.db.LogAccess(entry)]; the callers drop its error. *)
Definition LogAccess (entry : store.AuditEntry) (v : Vault) : Vault :=
  let '(_, d, r, c) := store.LogAccess entry (rand v) (clock v) (db v) in
  {| db := d; session := session v; salt := salt v; rand := r; clock := c |}.

(** An audit entry as the core writes them: no identifier, zero time. *)
Definition auditEntry (consumer scope action purpose : string) : store.AuditEntry :=
  {| store.EntryID := ""; store.Consumer := consumer; store.Scope := scope;
     store.Action := action; store.Purpose := purpose; store.CreatedAt := zeroTime |}.

Definition verificationText : string := "personal-vault-verification".

(** [Init] on a directory whose database file exists ([Some]) or not: the
    new database and the secret key in hexadecimal. *)
Definition Init (existing : option store.DB) (password : string) (r : Rand)
  : result (string * store.DB) * Rand :=
  match existing with
  | Some _ => (Err ErrAlreadyInit, r)
  | None =>
      let (salt0, r1) := crypto.GenerateSalt r in
      let (sk, r2) := crypto.GenerateSecretKey r1 in
      let d1 := store.SetMeta "salt" (base64_EncodeToString salt0) store.empty in
      let d2 := store.SetMeta "secret_key_hash"
                  (hex.EncodeToString (crypto.HashSecretKey sk)) d1 in
      let key := crypto.DeriveVaultKey (list_byte_of_string password) sk salt0 in
      match crypto.EncryptToBase64 key (list_byte_of_string verificationText) r2 with
      | (Err e, r3) => (Err e, r3)
      | (Ok verifyCipher, r3) =>
          let d3 := store.SetMeta "verification" verifyCipher d2 in
          (Ok (hex.EncodeToString sk, d3), r3)
      end
  end.

(** The callback handed to [NewSession]: [v.session = nil]. *)
Definition lockFn (v : Vault) : Vault := with_session v None.

(** [Unlock]. *)
Definition Unlock (password secretKeyHex : string) (v : Vault) : result string * Vault :=
  match session v with
  | Some _ => (Err ErrAlreadyUnlocked, v)
  | None =>
      if negb (store.IsInitialized (db v)) then (Err ErrNotInitialized, v)
      else
        match base64_DecodeString (store.GetMeta "salt" (db v)) with
        | None => (Err (ErrDecode "decode salt"), v)
        | Some salt0 =>
            match hex.DecodeString (strings.TrimSpace secretKeyHex) with
            | None => (Err (ErrDecode "decode secret key"), v)
            | Some sk =>
                let storedHash := store.GetMeta "secret_key_hash" (db v) in
                let actualHash := hex.EncodeToString (crypto.HashSecretKey sk) in
                if negb (subtle.ConstantTimeCompare (list_byte_of_string storedHash)
                           (list_byte_of_string actualHash) =? 1)%Z
                then (Err ErrWrongPassword, v)
                else
                  let key := crypto.DeriveVaultKey (list_byte_of_string password) sk salt0 in
                  let verifyCipher := store.GetMeta "verification" (db v) in
                  match crypto.DecryptFromBase64 key verifyCipher with
                  | Err _ => (Err ErrWrongPassword, v)
                  | Ok plaintext =>
                      if negb (String.eqb (string_of_list_byte plaintext) verificationText)
                      then (Err ErrWrongPassword, v)
                      else
                        let v1 := with_salt v salt0 in
                        let (s, r') := NewSession key (rand v1) in
                        let v2 := with_session (with_rand v1 r') (Some s) in
                        let v3 := LogAccess (auditEntry "vault" "*" "unlock" "") v2 in
                        (Ok (Token s), v3)
                  end
            end
        end
  end.

(** [Lock]. *)
Definition Lock (v : Vault) : Vault :=
  match session v with
  | Some s =>
      let v1 := LogAccess (auditEntry "vault" "*" "lock" "") v in
      let v2 := with_session v1 (Some (Destroy s)) in
      with_session v2 None
  | None => v
  end.

(** [requireUnlocked]: the key of the live session; the timer is touched
    on the way. *)
Definition requireUnlocked (v : Vault) : result (list byte) * Vault :=
  match session v with
  | None => (Err ErrLocked, v)
  | Some s =>
      let s' := Touch s in
      let v' := with_session v (Some s') in
      match VaultKey s' with
      | None => (Err ErrLocked, v')
      | Some key => (Ok key, v')
      end
  end.

(** A decrypted field as returned to callers. *)
Record FieldInfo := {
  ID : string;
  Category : string;
  FieldName : string;
  Value : string;
  Sensitivity : string;
  UpdatedAt : Z;
  Version : Z
}.

(** The [FieldInfo] of a row with the given (decrypted, or omitted) value. *)
Definition fieldInfo (f : store.Field) (value : string) : FieldInfo :=
  {| ID := store.ID f; Category := store.Category f; FieldName := store.FieldName f;
     Value := value; Sensitivity := store.Sensitivity f;
     UpdatedAt := store.UpdatedAt f; Version := store.Version f |}.

(** [Set]: [None] is Go's nil error. *)
Definition Set_ (id value sensitivity : string) (v : Vault) : option error * Vault :=
  match ValidateFieldID id with
  | Some e => (Some e, v)
  | None =>
      match requireUnlocked v with
      | (Err e, v1) => (Some e, v1)
      | (Ok key, v1) =>
          let parts := strings.SplitN id dot 2 in
          let category := nth 0 parts "" in
          let fieldName := nth 1 parts "" in
          match crypto.DeriveSubkey key (salt v1) category with
          | Err e => (Some e, v1)
          | Ok subkey =>
              match crypto.EncryptToBase64 subkey (list_byte_of_string value) (rand v1) with
              | (Err e, r') => (Some e, with_rand v1 r')
              | (Ok encrypted, r') =>
                  let v2 := with_rand v1 r' in
                  let sensitivity' :=
                    if String.eqb sensitivity "" then "standard" else sensitivity in
                  if negb (validTiers sensitivity') then (Some ErrInvalidTier, v2)
                  else
                    let (now, c') := time_Now (clock v2) in
                    let v3 := with_clock v2 c' in
                    let row := {| store.ID := id; store.Category := category;
                                  store.FieldName := fieldName; store.Value := encrypted;
                                  store.Sensitivity := sensitivity';
                                  store.UpdatedAt := now; store.Version := 0 |} in
                    let v4 := with_db v3 (store.SetField row (db v3)) in
                    (None, LogAccess (auditEntry "vault" id "write" "") v4)
              end
          end
      end
  end.

(** [Get]: [Ok None] is Go's [nil, nil] for a field that is not there. *)
Definition Get (id : string) (v : Vault) : result (option FieldInfo) * Vault :=
  match requireUnlocked v with
  | (Err e, v1) => (Err e, v1)
  | (Ok key, v1) =>
      match store.GetField id (db v1) with
      | None => (Ok None, v1)
      | Some f =>
          match crypto.DeriveSubkey key (salt v1) (store.Category f) with
          | Err e => (Err e, v1)
          | Ok subkey =>
              match crypto.DecryptFromBase64 subkey (store.Value f) with
              | Err e => (Err e, v1)
              | Ok plaintext =>
                  let v2 := LogAccess (auditEntry "vault" id "read" "") v1 in
                  (Ok (Some (fieldInfo f (string_of_list_byte plaintext))), v2)
              end
          end
      end
  end.

(** [List]: metadata only. *)
Definition List (v : Vault) : result (list FieldInfo) * Vault :=
  match requireUnlocked v with
  | (Err e, v1) => (Err e, v1)
  | (Ok _, v1) => (Ok ((fun f => fieldInfo f "") <$> store.ListFields (db v1)), v1)
  end.

(** [ListByCategory]: metadata only. *)
Definition ListByCategory (category : string) (v : Vault) : result (list FieldInfo) * Vault :=
  match requireUnlocked v with
  | (Err e, v1) => (Err e, v1)
  | (Ok _, v1) =>
      (Ok ((fun f => fieldInfo f "") <$> store.ListFieldsByCategory category (db v1)), v1)
  end.

(** The loop of [GetByCategory]: every row is decrypted under the one
    subkey; the first failure ends the call. *)
Fixpoint decryptAll (subkey : list byte) (fields : list store.Field)
  : result (list FieldInfo) :=
  match fields with
  | [] => Ok []
  | f :: rest =>
      match crypto.DecryptFromBase64 subkey (store.Value f) with
      | Err e => Err e
      | Ok plaintext =>
          match decryptAll subkey rest with
          | Err e => Err e
          | Ok infos => Ok (fieldInfo f (string_of_list_byte plaintext) :: infos)
          end
      end
  end.

(** [GetByCategory]. *)
Definition GetByCategory (category : string) (v : Vault) : result (list FieldInfo) * Vault :=
  match requireUnlocked v with
  | (Err e, v1) => (Err e, v1)
  | (Ok key, v1) =>
      let fields := store.GetFieldsByCategory category (db v1) in
      match crypto.DeriveSubkey key (salt v1) category with
      | Err e => (Err e, v1)
      | Ok subkey =>
          match decryptAll subkey fields with
          | Err e => (Err e, v1)
          | Ok result =>
              (Ok result, LogAccess (auditEntry "vault" (category ++ ".*") "read" "") v1)
          end
      end
  end.

(** The loop of [GetContext]: the bundle so far and the subkeys derived so
    far, one per category met. *)
Fixpoint contextLoop (key salt0 : list byte) (fields : list store.Field)
    (bundle : gmap string (list FieldInfo)) (subkeys : gmap string (list byte))
  : result (gmap string (list FieldInfo)) :=
  match fields with
  | [] => Ok bundle
  | f :: rest =>
      let derived :=
        match subkeys !! store.Category f with
        | Some sk => Ok (sk, subkeys)
        | None =>
            match crypto.DeriveSubkey key salt0 (store.Category f) with
            | Err e => Err e
            | Ok sk => Ok (sk, <[store.Category f := sk]> subkeys)
            end
        end in
      match derived with
      | Err e => Err e
      | Ok (sk, subkeys') =>
          match crypto.DecryptFromBase64 sk (store.Value f) with
          | Err e => Err e
          | Ok plaintext =>
              let info := fieldInfo f (string_of_list_byte plaintext) in
              let sofar := default [] (bundle !! store.Category f) in
              contextLoop key salt0 rest
                (<[store.Category f := sofar ++ [info]]> bundle) subkeys'
          end
      end
  end.

(** [GetContext]: every field, decrypted, grouped by category. *)
Definition GetContext (v : Vault) : result (gmap string (list FieldInfo)) * Vault :=
  match requireUnlocked v with
  | (Err e, v1) => (Err e, v1)
  | (Ok key, v1) =>
      match contextLoop key (salt v1) (store.GetAllFields (db v1)) ∅ ∅ with
      | Err e => (Err e, v1)
      | Ok bundle => (Ok bundle, LogAccess (auditEntry "vault" "*" "context" "") v1)
      end
  end.

(** [Delete]. *)
Definition Delete (id : string) (v : Vault) : option error * Vault :=
  match requireUnlocked v with
  | (Err e, v1) => (Some e, v1)
  | (Ok _, v1) =>
      let v2 := with_db v1 (store.DeleteField id (db v1)) in
      (None, LogAccess (auditEntry "vault" id "delete" "") v2)
  end.

(** [SetSensitivity]. *)
Definition SetSensitivity (id tier : string) (v : Vault) : option error * Vault :=
  match requireUnlocked v with
  | (Err e, v1) => (Some e, v1)
  | (Ok _, v1) =>
      if negb (validTiers tier) then (Some ErrInvalidTier, v1)
      else
        let (d, c') := store.SetSensitivity id tier (clock v1) (db v1) in
        (None, with_clock (with_db v1 d) c')
  end.

(** [AuditLog]. *)
Definition AuditLog (limit : Z) (v : Vault) : list store.AuditEntry :=
  store.GetAuditLog limit (db v).

(** [Vault.ValidateToken]. *)
Definition ValidateToken (tok : string) (v : Vault) : bool :=
  match session v with
  | None => false
  | Some s => Session_ValidateToken s tok
  end.

(** [hashServiceToken]: SHA-256 in hexadecimal. *)
Definition hashServiceToken (tok : string) : string :=
  hex.EncodeToString (sha256_Sum256 (list_byte_of_string tok)).

(** [CreateServiceToken]: the raw token goes to the caller, its hash to
    the store. *)
Definition CreateServiceToken (consumer scope : string) (ttl0 : Z) (v : Vault)
  : result string * Vault :=
  match requireUnlocked v with
  | (Err e, v1) => (Err e, v1)
  | (Ok _, v1) =>
      let (tokenBytes, r') := rand_Read 32 (rand v1) in
      let tokenStr := hex.EncodeToString tokenBytes in
      let (now1, c1) := time_Now (clock v1) in
      let (now2, c2) := time_Now c1 in
      let t := {| store.TokenStr := hashServiceToken tokenStr;
                  store.TokenConsumer := consumer; store.TokenScope := scope;
                  store.ExpiresAt := now1 + ttl0; store.Usage := "service";
                  store.TokenCreatedAt := now2 |} in
      let v2 := with_clock (with_rand v1 r') c2 in
      match store.CreateToken t (db v2) with
      | (Some e, _) => (Err e, v2)
      | (None, d) =>
          let v3 := with_db v2 d in
          (Ok tokenStr,
           LogAccess (auditEntry "vault" scope "create_service_token"
                        ("consumer: " ++ consumer)) v3)
      end
  end.

(** [ValidateServiceToken]: [None] is Go's [nil, false]. *)
Definition ValidateServiceToken (tok : string) (v : Vault) : option store.Token * Vault :=
  let (t, c') := store.GetToken (hashServiceToken tok) (clock v) (db v) in
  let v' := with_clock v c' in
  match t with
  | None => (None, v')
  | Some t => if negb (String.eqb (store.Usage t) "service") then (None, v') else (Some t, v')
  end.

(** [ListServiceTokens]. *)
Definition ListServiceTokens (v : Vault) : result (list store.Token) * Vault :=
  match requireUnlocked v with
  | (Err e, v1) => (Err e, v1)
  | (Ok _, v1) => (Ok (store.ListTokensByUsage "service" (db v1)), v1)
  end.

(** [RevokeServiceToken]: the argument is hashed, then deleted by key. *)
Definition RevokeServiceToken (tok : string) (v : Vault) : result Z * Vault :=
  match requireUnlocked v with
  | (Err e, v1) => (Err e, v1)
  | (Ok _, v1) =>
      let (n, d) := store.DeleteToken (hashServiceToken tok) (db v1) in
      let v2 := with_db v1 d in
      if (0 <? n)%Z
      then (Ok n, LogAccess (auditEntry "vault" "*" "revoke_service_token" "") v2)
      else (Ok n, v2)
  end.

(** [TouchSession]. *)
Definition TouchSession (v : Vault) : Vault :=
  match session v with
  | Some s => with_session v (Some (Touch s))
  | None => v
  end.

(** The auto-lock timer of the live session expires (it is armed from
    [NewSession] until [Destroy] or this very event): [autoLock] under the
    session's mutex, then the callback under the vault's. *)
Definition timerFires (v : Vault) : Vault :=
  match session v with
  | Some s => lockFn (with_session v (Some (autoLock s)))
  | None => v
  end.

End vault.
End vault.

(** ** [internal/api]: the request gate and the handlers *)

Module api.
Section api.
Context `{P : Primitives}.

(** [time.ParseDuration], from Go's library. *)
Variable ParseDuration : string -> option Z.

(** The two values the gate stores in the request context. *)
Record Ctx := {
  scopeKey : option string;
  sessionAuthKey : option bool
}.

(** [scopeFromRequest]. *)
Definition scopeFromRequest (r : Ctx) : string := default "*" (scopeKey r).

(** [isSessionAuth]. *)
Definition isSessionAuth (r : Ctx) : bool := default false (sessionAuthKey r).

(** A row of the service-token listing. *)
Record tokenInfo := {
  TokenPrefix : string;
  Consumer : string;
  Scope : string;
  ExpiresAt : Z;
  CreatedAt : Z
}.

(** The JSON bodies of the responses. *)
Inductive Body : Type :=
| ErrorBody (constraint msg : string)
| StatusBody (status : string)
| RevokedBody (count : Z)
| FieldsBody (fields : list vault.FieldInfo)
| AuditBody (entries : list store.AuditEntry)
| TokenBody (tok : string) (expires_at : Z)
| TokenListBody (infos : list tokenInfo).

Record Response := { status : Z; body : Body }.

Definition writeJSON (code : Z) (b : Body) : Response := {| status := code; body := b |}.

Definition writeError (code : Z) (constraint msg : string) : Response :=
  writeJSON code (ErrorBody constraint msg).

Definition scopeDenied : Response :=
  writeError 403 "scope_exceeded" "token scope does not allow access to this field".

Definition sessionRequired : Response :=
  writeError 403 "session_required"
    "this operation requires a session token, not a service token".

(** [handleVaultError]. *)
Definition handleVaultError (e : error) : Response :=
  match e with
  | ErrLocked => writeError 403 "vault_locked" "vault is locked"
  | ErrAlreadyUnlocked => writeError 409 "conflict" "vault is already unlocked"
  | ErrNotInitialized => writeError 412 "not_initialized" "vault is not initialized"
  | ErrInvalidTier =>
      writeError 400 "invalid_request"
        "invalid sensitivity tier: must be public, standard, sensitive, or critical"
  | _ => writeError 500 "internal" "internal error"
  end.

(** POST /vault/lock *)
Definition handleLock (r : Ctx) (v : vault.Vault) : Response * vault.Vault :=
  if negb (isSessionAuth r) then (sessionRequired, v)
  else (writeJSON 200 (StatusBody "locked"), vault.Lock v).

(** GET /vault/fields/category/{category} *)
Definition handleGetByCategory (r : Ctx) (category : string) (v : vault.Vault)
  : Response * vault.Vault :=
  if negb (ValidCategoryName category)
  then (writeError 400 "invalid_request"
          "invalid category name: only alphanumeric, underscore, hyphen allowed", v)
  else
    let scope := scopeFromRequest r in
    if negb (ScopeAllowsCategory scope category) then (scopeDenied, v)
    else
      match vault.GetByCategory category v with
      | (Err e, v') => (handleVaultError e, v')
      | (Ok fields, v') =>
          let allowed := List.filter (fun f => ScopeAllows scope (vault.ID f)) fields in
          (writeJSON 200 (FieldsBody allowed), v')
      end.

Definition isDigit (c : ascii) : bool :=
  (48 <=? N_of_ascii c)%N && (N_of_ascii c <=? 57)%N.

Fixpoint digits (s : string) (acc : Z) : option Z :=
  match s with
  | EmptyString => Some acc
  | String c rest =>
      if isDigit c then digits rest (acc * 10 + Z.of_N (N_of_ascii c - 48)) else None
  end.

(** [strconv.Atoi]: an optional sign and decimal digits, within 64 bits. *)
Definition Atoi (s : string) : option Z :=
  let parsed :=
    match s with
    | EmptyString => None
    | String c rest =>
        if Ascii.eqb c "+" then (if String.eqb rest "" then None else digits rest 0)
        else if Ascii.eqb c "-"
        then (if String.eqb rest "" then None else Z.opp <$> digits rest 0)
        else digits s 0
    end in
  match parsed with
  | Some n => if (- 2 ^ 63 <=? n)%Z && (n <? 2 ^ 63)%Z then Some n else None
  | None => None
  end.

(** GET /vault/audit *)
Definition handleAuditLog (r : Ctx) (limitStr : string) (v : vault.Vault)
  : Response * vault.Vault :=
  if negb (isSessionAuth r) then (sessionRequired, v)
  else
    let limit0 :=
      if String.eqb limitStr "" then 50%Z
      else match Atoi limitStr with
           | Some n => if (0 <? n)%Z then n else 50%Z
           | None => 50%Z
           end in
    let limit := if (1000 <? limit0)%Z then 1000%Z else limit0 in
    (writeJSON 200 (AuditBody (vault.AuditLog limit v)), v).

(** The decoded body of POST /vault/tokens/service. *)
Record createTokenRequest := {
  reqConsumer : string;
  reqScope : string;
  reqTTL : string
}.

(** POST /vault/tokens/service; [None] is a body that is no JSON. *)
Definition handleCreateServiceToken (r : Ctx) (req : option createTokenRequest)
    (v : vault.Vault) : Response * vault.Vault :=
  if negb (isSessionAuth r) then (sessionRequired, v)
  else
    match req with
    | None => (writeError 400 "invalid_request" "invalid JSON", v)
    | Some req =>
        if String.eqb (reqConsumer req) ""
        then (writeError 400 "invalid_request" "consumer required", v)
        else
          let scope := if String.eqb (reqScope req) "" then "*" else reqScope req in
          let parsed :=
            if String.eqb (reqTTL req) "" then Some (365 * 24 * 3600 * second)%Z
            else ParseDuration (reqTTL req) in
          match parsed with
          | None => (writeError 400 "invalid_request" "invalid ttl duration", v)
          | Some ttl =>
              match vault.CreateServiceToken (reqConsumer req) scope ttl v with
              | (Err e, v') => (handleVaultError e, v')
              | (Ok tok, v') =>
                  let (now, c') := time_Now (vault.clock v') in
                  (writeJSON 200 (TokenBody tok (RFC3339 (now + ttl))),
                   vault.with_clock v' c')
              end
          end
    end.

(** The first eight characters of a hash, for display. *)
Definition hashPrefix (h : string) : string :=
  if (8 <? String.length h)%nat then String.substring 0 8 h ++ "..." else h.

(** GET /vault/tokens/service *)
Definition handleListServiceTokens (r : Ctx) (v : vault.Vault) : Response * vault.Vault :=
  if negb (isSessionAuth r) then (sessionRequired, v)
  else
    match vault.ListServiceTokens v with
    | (Err e, v') => (handleVaultError e, v')
    | (Ok tokens, v') =>
        (writeJSON 200
           (TokenListBody
              ((fun t => {| TokenPrefix := hashPrefix (store.TokenStr t);
                            Consumer := store.TokenConsumer t;
                            Scope := store.TokenScope t;
                            ExpiresAt := store.ExpiresAt t;
                            CreatedAt := store.TokenCreatedAt t |}) <$> tokens)),
         v')
    end.

(** DELETE /vault/tokens/service/{token} *)
Definition handleRevokeServiceToken (r : Ctx) (prefix : string) (v : vault.Vault)
  : Response * vault.Vault :=
  if negb (isSessionAuth r) then (sessionRequired, v)
  else if String.eqb prefix ""
  then (writeError 400 "invalid_request" "token prefix required", v)
  else
    match vault.RevokeServiceToken prefix v with
    | (Err e, v') => (handleVaultError e, v')
    | (Ok n, v') =>
        if (n =? 0)%Z then (writeError 404 "not_found" "no matching token found", v')
        else (writeJSON 200 (RevokedBody n), v')
    end.

(** The protected routes of the claims, with what the router extracts
    from the request for each. *)
Inductive Route : Type :=
| POST_vault_lock
| GET_vault_fields_category (category : string)
| GET_vault_audit (limit : string)
| POST_vault_tokens_service (req : option createTokenRequest)
| GET_vault_tokens_service
| DELETE_vault_tokens_service (tok : string).

(** The dispatch of the protected mux. *)
Definition protected (route : Route) (r : Ctx) (v : vault.Vault) : Response * vault.Vault :=
  match route with
  | POST_vault_lock => handleLock r v
  | GET_vault_fields_category category => handleGetByCategory r category v
  | GET_vault_audit limit => handleAuditLog r limit v
  | POST_vault_tokens_service req => handleCreateServiceToken r req v
  | GET_vault_tokens_service => handleListServiceTokens r v
  | DELETE_vault_tokens_service tok => handleRevokeServiceToken r tok v
  end.


(** [authMiddleware] around a handler, on the [Authorization] header. *)
Definition authMiddleware (next : Ctx -> vault.Vault -> Response * vault.Vault)
    (auth : string) (v : vault.Vault) : Response * vault.Vault :=
  if negb (strings.HasPrefix auth "Bearer ")
  then (writeError 401 "unauthenticated" "missing authorization", v)
  else
    let tok := strings.TrimPrefix auth "Bearer " in
    if vault.ValidateToken tok v then
      let v1 := vault.TouchSession v in
      next {| scopeKey := Some "*"; sessionAuthKey := Some true |} v1
    else
      match vault.ValidateServiceToken tok v with
      | (Some svcToken, v1) =>
          let v2 := vault.TouchSession v1 in
          let v3 := vault.LogAccess
                      (vault.auditEntry (store.TokenConsumer svcToken)
                         (store.TokenScope svcToken) "api_access" "") v2 in
          next {| scopeKey := Some (store.TokenScope svcToken);
                  sessionAuthKey := Some false |} v3
      | (None, v1) =>
          (writeError 401 "unauthenticated" "invalid or expired token", v1)
      end.

(** A request to a protected route, through the gate. *)
Definition serve (auth : string) (route : Route) (v : vault.Vault) : Response * vault.Vault :=
  authMiddleware (protected route) auth v.

End api.
End api.

(** ** A small instance of the primitives

    Stand-ins that satisfy the laws of [Primitives] and compute, so that the
    model can be run on concrete inputs: digests and derived keys are the
    input cut or padded to the length asked for, the seal appends a tag
    made from the key and the nonce, base-64 is the identity on bytes. *)

Module toy.

#[export] Instance byte_eq_dec : EqDecision byte := Byte.byte_eq_dec.

Definition fit (n : nat) (l : list byte) : list byte := take n (l ++ replicate n x00).

Definition tag (key nonce : list byte) : list byte := fit 16 (key ++ nonce).

Definition Seal (key nonce pt : list byte) : list byte := pt ++ tag key nonce.

Definition Open (key nonce ct : list byte) : option (list byte) :=
  let n := (length ct - 16)%nat in
  if decide (drop n ct = tag key nonce) then Some (take n ct) else None.

#[export] Program Instance primitives : Primitives := {|
  sha256_Sum256 m := fit 32 m;
  argon2_IDKey p s _ _ _ n := fit n (p ++ s);
  hkdf_Read secret salt info n := Some (fit n (info ++ secret ++ salt));
  gcm_Seal := Seal;
  gcm_Open := Open;
  base64_EncodeToString := string_of_list_byte;
  base64_DecodeString s := Some (list_byte_of_string s)
|}.
Next Obligation.
  intros m. unfold fit. rewrite length_take, length_app, length_replicate. lia.
Qed.
Next Obligation.
  intros. unfold fit. rewrite length_take, length_app, length_replicate. lia.
Qed.
Next Obligation.
  intros secret salt0 info n _. eexists. split; [reflexivity|].
  unfold fit. rewrite length_take, length_app, length_replicate. lia.
Qed.
Next Obligation.
  intros key nonce pt. unfold Seal, tag, fit.
  rewrite length_app, length_take, length_app, length_replicate. lia.
Qed.
Next Obligation.
  intros key nonce pt. unfold Open, Seal.
  assert (Htag : length (tag key nonce) = 16%nat).
  { unfold tag, fit. rewrite length_take, length_app, length_replicate. lia. }
  rewrite length_app, Htag.
  replace (length pt + 16 - 16)%nat with (length pt) by lia.
  rewrite drop_app_length, take_app_length. by rewrite decide_True.
Qed.
Next Obligation.
  intros b. simpl. by rewrite list_byte_of_string_of_list_byte.
Qed.

(** A tape of random bytes and a clock that ticks once a second. *)
Definition tape (n : nat) : byte := hex.byteOf (N.of_nat (7 * n + 3) mod 256).
Definition ticks (n : nat) : Z := (1700000000 + Z.of_nat n) * second.
Definition rand0 : Rand := {| randTape := tape; randPos := 0 |}.
Definition clock0 : Clock := {| clockTape := ticks; clockPos := 0 |}.

(** [Init] on a fresh directory with the password of the specification's
    first scenario: the secret key and the database. *)
Definition initialised : string * store.DB * Rand :=
  match vault.Init None "hunter2hunter2" rand0 with
  | (Ok out, r) => (out, r)
  | (Err _, r) => (("", store.empty), r)
  end.

Definition secretKey : string := fst (fst initialised).

(** The vault opened on that database, then unlocked. *)
Definition opened : vault.Vault := vault.Open (snd (fst initialised)) (snd initialised) clock0.
Definition unlocked : vault.Vault := snd (vault.Unlock "hunter2hunter2" secretKey opened).

(** The unlocked vault after [set identity.full_name] and
    [set financial.income], and then after [set identity.dob]. *)
Definition populated : vault.Vault :=
  let v1 := snd (vault.Set_ "identity.full_name" "Cool Cucumber" "" unlocked) in
  snd (vault.Set_ "financial.income" "100" "sensitive" v1).

Definition crowded : vault.Vault :=
  snd (vault.Set_ "identity.dob" "1990-01-01" "sensitive" populated).

(** The populated vault after a service token was created for the scope
    [identity.*]: the raw token and the vault. *)
Definition issued : result string * vault.Vault :=
  vault.CreateServiceToken "life" "identity.*" (24 * 3600 * second) populated.

Definition rawToken : string :=
  match fst issued with
  | Ok raw => raw
  | Err _ => ""
  end.

Definition tokened : vault.Vault := snd issued.

End toy.

(** Outside the sections below, which are generic in the primitives, the
    model runs on the small instance. *)
Import toy.

(** ** Vocabulary of the properties *)

(** The part of an identifier after its first ['.']. *)
Definition nameAfterDot (id : string) : string :=
  match strings.Cut id dot with
  | Some (_, after) => after
  | None => ""
  end.

(** The vault is unlocked with master key [key]: a session is installed and
    it still holds its key. *)
Definition Unlocked `{P : Primitives} (v : vault.Vault) (key : list byte) : Prop :=
  exists s, vault.session v = Some s /\ vault.vaultKey s = Some key.


(** The key of the live session, computed ([[]] when there is none), and
    whether there is one. *)
Definition liveKey `{P : Primitives} (v : vault.Vault) : list byte :=
  match vault.session v with
  | Some s => default [] (vault.vaultKey s)
  | None => []
  end.

Definition isUnlocked `{P : Primitives} (v : vault.Vault) : bool :=
  match vault.session v with
  | Some s => match vault.vaultKey s with Some _ => true | None => false end
  | None => false
  end.

(** The sensitivity [Set] works with after its normalisation. *)
Definition normalTier (tier : string) : string :=
  if String.eqb tier "" then "standard" else tier.

(** Every row sits under its own identifier, in the category its
    identifier names. *)
Definition rowKeyed (id : string) (f : store.Field) : Prop :=
  store.ID f = id /\ store.Category f = prefixBeforeDot id.

Definition rowsKeyed (d : store.DB) : Prop := map_Forall rowKeyed (store.vault_fields d).

#[global] Instance rowKeyed_dec id f : Decision (rowKeyed id f).
Proof. unfold rowKeyed. apply _. Defined.

#[global] Instance rowsKeyed_dec d : Decision (rowsKeyed d).
Proof. unfold rowsKeyed. apply _. Defined.

(** A row opens under the subkey of its category. *)
Definition opens `{P : Primitives} (key salt0 : list byte) (f : store.Field) : bool :=
  match crypto.DeriveSubkey key salt0 (store.Category f) with
  | Ok subkey =>
      match crypto.DecryptFromBase64 subkey (store.Value f) with
      | Ok _ => true
      | Err _ => false
      end
  | Err _ => false
  end.

(** Every row of a category opens under the key. *)
Definition rowOpens `{P : Primitives} (key salt0 : list byte) (category : string)
    (id : string) (f : store.Field) : Prop :=
  store.Category f = category -> opens key salt0 f = true.

Definition categoryOpens `{P : Primitives} (key salt0 : list byte) (category : string)
    (d : store.DB) : Prop :=
  map_Forall (rowOpens key salt0 category) (store.vault_fields d).

#[global] Instance rowOpens_dec `{P : Primitives} key salt0 category id f :
  Decision (rowOpens key salt0 category id f).
Proof. unfold rowOpens. apply _. Defined.

#[global] Instance categoryOpens_dec `{P : Primitives} key salt0 category d :
  Decision (categoryOpens key salt0 category d).
Proof. unfold categoryOpens. apply _. Defined.



(** Every row of the token table sits under the hash of one of the raw
    tokens [raws] (the values [CreateServiceToken] handed out). *)
Definition issuedRow `{P : Primitives} (raws : list string) (h : string)
    (t : store.Token) : Prop :=
  h ∈ (vault.hashServiceToken <$> raws).

Definition issuedFrom `{P : Primitives} (raws : list string) (d : store.DB) : Prop :=
  map_Forall (issuedRow raws) (store.vault_tokens d).

#[global] Instance issuedRow_dec `{P : Primitives} raws h t : Decision (issuedRow raws h t).
Proof. unfold issuedRow. apply _. Defined.

#[global] Instance issuedFrom_dec `{P : Primitives} raws d : Decision (issuedFrom raws d).
Proof. unfold issuedFrom. apply _. Defined.

(** [p] is a prefix of [x] and shorter than it. *)
Definition properPrefix (p x : string) : Prop := String.prefix p x = true /\ p <> x.

(** The row [Set] hands to the store. *)
Definition setRow (id encrypted tier : string) (now : Z) : store.Field :=
  {| store.ID := id; store.Category := prefixBeforeDot id;
     store.FieldName := nameAfterDot id; store.Value := encrypted;
     store.Sensitivity := tier; store.UpdatedAt := now; store.Version := 0 |}.

(** The next reading of the clock. *)
Definition nextTime (c : Clock) : Z := clockTape c (clockPos c).

(** The operations of the core that ask [requireUnlocked] for the key. *)
Inductive Privileged : Type :=
| OpSet (id value sensitivity : string)
| OpGet (id : string)
| OpList
| OpListByCategory (category : string)
| OpGetByCategory (category : string)
| OpGetContext
| OpDelete (id : string)
| OpSetSensitivity (id tier : string)
| OpCreateServiceToken (consumer scope : string) (ttl : Z)
| OpListServiceTokens
| OpRevokeServiceToken (tok : string).

Definition errorOf {A : Type} (r : result A) : option error :=
  match r with
  | Ok _ => None
  | Err e => Some e
  end.

(** The error an operation returns ([None] for success) and the vault it
    leaves. *)
Definition run `{P : Primitives} (op : Privileged) (v : vault.Vault)
  : option error * vault.Vault :=
  match op with
  | OpSet id value sensitivity => vault.Set_ id value sensitivity v
  | OpGet id => let (r, v') := vault.Get id v in (errorOf r, v')
  | OpList => let (r, v') := vault.List v in (errorOf r, v')
  | OpListByCategory c => let (r, v') := vault.ListByCategory c v in (errorOf r, v')
  | OpGetByCategory c => let (r, v') := vault.GetByCategory c v in (errorOf r, v')
  | OpGetContext => let (r, v') := vault.GetContext v in (errorOf r, v')
  | OpDelete id => vault.Delete id v
  | OpSetSensitivity id tier => vault.SetSensitivity id tier v
  | OpCreateServiceToken consumer scope ttl =>
      let (r, v') := vault.CreateServiceToken consumer scope ttl v in (errorOf r, v')
  | OpListServiceTokens => let (r, v') := vault.ListServiceTokens v in (errorOf r, v')
  | OpRevokeServiceToken tok =>
      let (r, v') := vault.RevokeServiceToken tok v in (errorOf r, v')
  end.


(** ** The vault as a transition system

    One step is one call into the core, or the expiry of the auto-lock
    timer; the reachable vaults are those that start from a database made
    by [Init] and opened. *)

Inductive Step `{P : Primitives} : vault.Vault -> vault.Vault -> Prop :=
| step_run (op : Privileged) (v : vault.Vault) : Step v (snd (run op v))
| step_Unlock (password secretKeyHex : string) (v : vault.Vault) :
    Step v (snd (vault.Unlock password secretKeyHex v))
| step_Lock (v : vault.Vault) : Step v (vault.Lock v)
| step_timerFires (v : vault.Vault) : Step v (vault.timerFires v)
| step_TouchSession (v : vault.Vault) : Step v (vault.TouchSession v)
| step_LogAccess (entry : store.AuditEntry) (v : vault.Vault) :
    Step v (vault.LogAccess entry v)
| step_ValidateServiceToken (tok : string) (v : vault.Vault) :
    Step v (snd (vault.ValidateServiceToken tok v)).

Inductive Reachable `{P : Primitives} : vault.Vault -> Prop :=
| reach_Open (password sk : string) (d : store.DB) (r0 r r' : Rand) (c : Clock) :
    vault.Init None password r0 = (Ok (sk, d), r) ->
    Reachable (vault.Open d r' c)
| reach_Step (v v' : vault.Vault) : Reachable v -> Step v v' -> Reachable v'.

(** The database [d'] continues [d]: the metadata written by [Init] are
    the same and the access log of [d] is the beginning of that of [d']. *)
Definition continues (d d' : store.DB) : Prop :=
  store.vault_meta d' = store.vault_meta d
  /\ exists added, store.vault_access_log d' = store.vault_access_log d ++ added.

(** * Properties *)

(** ** Strings *)

Lemma append_String (a : ascii) (s t : string) :
  (String a s ++ t)%string = String a (s ++ t)%string.
Proof. reflexivity. Qed.

Lemma append_Empty (t : string) : (EmptyString ++ t)%string = t.
Proof. reflexivity. Qed.

Lemma substring_0_length_app (s t : string) :
  String.substring 0 (String.length s) (s ++ t) = s.
Proof.
  induction s as [|a s IH]; [by destruct t|].
  rewrite append_String. simpl. by rewrite IH.
Qed.

Lemma substring_length_app (s t : string) (n : nat) :
  String.substring (String.length s) n (s ++ t) = String.substring 0 n t.
Proof. induction s as [|a s IH]; [done|]. rewrite append_String. apply IH. Qed.

Lemma substring_0_all (s : string) :
  String.substring 0 (String.length s) s = s.
Proof. induction s as [|a s IH]; simpl; [done | by rewrite IH]. Qed.

Lemma string_length_app (s t : string) :
  String.length (s ++ t) = (String.length s + String.length t)%nat.
Proof.
  induction s as [|a s IH]; [done|]. rewrite append_String. simpl. by rewrite IH.
Qed.


Lemma HasSuffix_app (s suf : string) : strings.HasSuffix (s ++ suf) suf = true.
Proof.
  unfold strings.HasSuffix, strings.last_bytes.
  rewrite string_length_app.
  replace (String.length s + String.length suf - String.length suf)%nat
    with (String.length s) by lia.
  rewrite substring_length_app, substring_0_all, String.eqb_refl.
  rewrite andb_true_r. apply Nat.leb_le. lia.
Qed.


Lemma TrimSuffix_app (s suf : string) : strings.TrimSuffix (s ++ suf) suf = s.
Proof.
  unfold strings.TrimSuffix. rewrite HasSuffix_app, string_length_app.
  replace (String.length s + String.length suf - String.length suf)%nat
    with (String.length s) by lia.
  apply substring_0_length_app.
Qed.

Lemma string_app_inv_r (s1 s2 t : string) : (s1 ++ t = s2 ++ t)%string -> s1 = s2.
Proof.
  intros H.
  assert (Hlen : String.length s1 = String.length s2).
  { apply (f_equal String.length) in H. rewrite !string_length_app in H. lia. }
  rewrite <- (substring_0_length_app s1 t), H, Hlen.
  apply substring_0_length_app.
Qed.


(** *** Cutting at the first dot *)

Lemma Cut_Some (s : string) (sep : ascii) (before after : string) :
  strings.Cut s sep = Some (before, after) ->
  s = (before ++ String sep after)%string /\ allChars (fun c => negb (Ascii.eqb c sep)) before = true.
Proof.
  revert before. induction s as [|a s IH]; intros before; simpl; [done|].
  destruct (Ascii.eqb a sep) eqn:Ha.
  - intros [= <- <-]. apply Ascii.eqb_eq in Ha. by subst.
  - destruct (strings.Cut s sep) as [[b' a']|]; [|done].
    intros [= <- <-]. destruct (IH b' eq_refl) as [-> Hb].
    simpl. by rewrite Ha, Hb.
Qed.

Lemma Cut_app (before after : string) (sep : ascii) :
  allChars (fun c => negb (Ascii.eqb c sep)) before = true ->
  strings.Cut (before ++ String sep after) sep = Some (before, after).
Proof.
  induction before as [|a b IH]; simpl.
  - by rewrite Ascii.eqb_refl.
  - intros [Ha Hb]%andb_true_iff. apply negb_true_iff in Ha.
    by rewrite Ha, IH.
Qed.

Lemma Cut_None (s : string) (sep : ascii) :
  strings.Cut s sep = None <-> allChars (fun c => negb (Ascii.eqb c sep)) s = true.
Proof.
  induction s as [|a s IH]; simpl; [done|].
  destruct (Ascii.eqb a sep); simpl; [done|].
  destruct (strings.Cut s sep) as [[b' a']|]; [|tauto].
  split; [done|]. intros H. by apply IH in H.
Qed.

Lemma allChars_impl (p q : ascii -> bool) (s : string) :
  (forall c, p c = true -> q c = true) -> allChars p s = true -> allChars q s = true.
Proof.
  intros Hpq. induction s as [|a s IH]; simpl; [done|].
  intros [Ha Hs]%andb_true_iff. by rewrite (Hpq a Ha), IH.
Qed.

Lemma idChar_not_dot (c : ascii) : idChar c = true -> negb (Ascii.eqb c dot) = true.
Proof.
  intros H. apply negb_true_iff, Ascii.eqb_neq. intros ->. by vm_compute in H.
Qed.

(** A text made of identifier characters has no dot to cut at. *)
Lemma validIDPart_no_dot (s : string) :
  validIDPart s = true -> strings.Cut s dot = None.
Proof.
  unfold validIDPart. intros [_ H]%andb_true_iff.
  apply Cut_None. revert H. apply allChars_impl, idChar_not_dot.
Qed.

(** What [ValidateFieldID] accepts: [category.name], both parts non-empty
    and made of identifier characters. *)
Lemma ValidateFieldID_None (id : string) :
  ValidateFieldID id = None <->
  exists category name,
    id = (category ++ String dot name)%string
    /\ validIDPart category = true /\ validIDPart name = true.
Proof.
  unfold ValidateFieldID. simpl. split.
  - destruct (strings.Cut id dot) as [[c n]|] eqn:Hcut; [|done].
    destruct (String.eqb c "" || String.eqb n ""); [done|].
    destruct (validIDPart c) eqn:Hc; [|done].
    destruct (validIDPart n) eqn:Hn; [|done].
    intros _. exists c, n. by destruct (Cut_Some _ _ _ _ Hcut) as [-> _].
  - intros (c & n & -> & Hc & Hn).
    rewrite Cut_app.
    2:{ apply andb_true_iff in Hc as [_ Hc]. revert Hc.
        apply allChars_impl, idChar_not_dot. }
    rewrite Hc, Hn. simpl.
    unfold validIDPart in Hc, Hn.
    apply andb_true_iff in Hc as [Hc _]. apply andb_true_iff in Hn as [Hn _].
    apply negb_true_iff in Hc, Hn. by rewrite Hc, Hn.
Qed.

(** *** The scope grammar *)


Lemma prefix_Empty (s : string) : String.prefix "" s = true.
Proof. by destruct s. Qed.

Lemma prefix_String (a b : ascii) (s t : string) :
  String.prefix (String a s) (String b t) = Ascii.eqb a b && String.prefix s t.
Proof.
  simpl. destruct (ascii_dec a b) as [->|Hne].
  - by rewrite Ascii.eqb_refl.
  - apply Ascii.eqb_neq in Hne. by rewrite Hne.
Qed.

Lemma prefix_dot_noDot (x s : string) :
  noDot s = true -> String.prefix (x ++ ".") s = false.
Proof.
  revert x. induction s as [|b s IH]; intros x Hs.
  - by destruct x.
  - apply andb_true_iff in Hs as [Hb Hs]. apply negb_true_iff in Hb.
    rewrite Ascii.eqb_sym in Hb.
    destruct x as [|a x].
    + rewrite append_Empty, prefix_String. fold dot. by rewrite Hb.
    + rewrite append_String, prefix_String, (IH x Hs). apply andb_false_r.
Qed.

(** On an identifier [c.n] with one dot, [HasPrefix(id, category + ".")]
    compares the part before the dot with [category]. *)
Lemma HasPrefix_category (c n category : string) :
  noDot c = true -> noDot n = true ->
  strings.HasPrefix (c ++ String dot n) (category ++ ".") = String.eqb c category.
Proof.
  unfold strings.HasPrefix. intros Hc Hn. revert category Hc.
  induction c as [|a c IH]; intros category Hc.
  - rewrite append_Empty. destruct category as [|b category].
    + by rewrite append_Empty, prefix_String, prefix_Empty.
    + rewrite append_String, prefix_String, (prefix_dot_noDot _ _ Hn).
      apply andb_false_r.
  - apply andb_true_iff in Hc as [Ha Hc]. apply negb_true_iff in Ha.
    rewrite append_String. destruct category as [|b category].
    + rewrite append_Empty, prefix_String. fold dot.
      rewrite Ascii.eqb_sym in Ha. by rewrite Ha.
    + rewrite append_String, prefix_String, (IH _ Hc). simpl.
      rewrite (Ascii.eqb_sym b a). by destruct (Ascii.eqb a b).
Qed.

Lemma validIDPart_noDot (s : string) : validIDPart s = true -> noDot s = true.
Proof.
  unfold validIDPart, noDot. intros [_ H]%andb_true_iff.
  revert H. apply allChars_impl, idChar_not_dot.
Qed.

Lemma prefixBeforeDot_app (c n : string) :
  noDot c = true -> prefixBeforeDot (c ++ String dot n) = c.
Proof. intros Hc. unfold prefixBeforeDot. by rewrite Cut_app. Qed.

(** The loop of [ScopeAllows] only ever stops with [true]. *)
Lemma scopeLoop_existsb (step : string -> option bool) (ps : list string) :
  (forall p, step p <> Some false) ->
  scopeLoop step ps = existsb (fun p => bool_decide (step p = Some true)) ps.
Proof.
  intros Hstep. induction ps as [|p ps IH]; simpl; [done|].
  destruct (step p) as [[|]|] eqn:Hp.
  - done.
  - by destruct (Hstep p).
  - by rewrite IH.
Qed.





(** Without the syntax check the two readings of [category.*] part: the
    code compares a textual prefix, so a category that itself holds a dot
    reaches below the first dot of a (malformed) identifier. *)
Example ScopeAllows_unvalidated_identifier :
  ScopeAllows "a.b.*" "a.b.c" = true /\ patternMatches "a.b.*" "a.b.c" = false
  /\ ScopeAllows "" "" = true.
Proof. by vm_compute. Qed.

Example ScopeAllows_tests :
  map (fun t => ScopeAllows (fst t) (snd t))
    [("*", "identity.full_name"); ("identity.*", "identity.dob");
     ("identity.*", "financial.income"); ("identity.full_name", "identity.full_name");
     ("identity.full_name", "identity.dob"); ("identity.*,financial.*", "addresses.home_city");
     ("identity.*,financial.income", "financial.income");
     ("identity.* , financial.*", "financial.income");
     ("", "identity.full_name"); ("identity.*", "")]
  = [true; true; false; true; false; false; true; true; false; false].
Proof. reflexivity. Qed.

Example ValidateFieldID_tests :
  map (fun id => match ValidateFieldID id with None => true | Some _ => false end)
    ["identity.full_name"; "identity.t-shirt_size"; "A.B"; ""; "noDot";
     ".leading_dot"; "trailing_dot."; "identity.full name"; "cat.field.extra"]
  = [true; true; true; false; false; false; false; false; false].
Proof. reflexivity. Qed.

Example ScopeAllowsCategory_tests :
  map (fun t => ScopeAllowsCategory (fst t) (snd t))
    [("*", "identity"); ("identity.*", "identity"); ("identity.*", "financial");
     ("identity.*,financial.*", "financial"); ("identity.full_name", "identity");
     ("identity.full_name", "financial"); ("", "identity")]
  = [true; true; false; true; true; false; false].
Proof. reflexivity. Qed.

(** ** Constant-time comparison *)

Lemma byteZ_range (b : byte) : (0 <= subtle.byteZ b < 256)%Z.
Proof.
  unfold subtle.byteZ. pose proof (Byte.to_N_bounded b) as H. lia.
Qed.

Lemma byteZ_inj (a b : byte) : subtle.byteZ a = subtle.byteZ b -> a = b.
Proof.
  unfold subtle.byteZ. intros H%N2Z.inj.
  assert (E : Byte.of_N (Byte.to_N a) = Byte.of_N (Byte.to_N b)) by by rewrite H.
  rewrite !Byte.of_to_N in E. by injection E.
Qed.

Lemma lor_byte (a b : Z) :
  (0 <= a < 256)%Z -> (0 <= b < 256)%Z -> (0 <= Z.lor a b < 256)%Z.
Proof.
  intros Ha Hb. split; [apply Z.lor_nonneg; lia|].
  destruct (Z.eq_dec (Z.lor a b) 0%Z) as [->|Hne]; [lia|].
  assert (Hpos : (0 < Z.lor a b)%Z).
  { pose proof (proj2 (Z.lor_nonneg a b) (conj (proj1 Ha) (proj1 Hb))). lia. }
  change 256%Z with (2 ^ 8)%Z. apply Z.log2_lt_pow2; [done|].
  rewrite Z.log2_lor by lia.
  assert (La : (Z.log2 a < 8)%Z).
  { destruct (Z.eq_dec a 0%Z) as [->|]; [done|]. apply Z.log2_lt_pow2; lia. }
  assert (Lb : (Z.log2 b < 8)%Z).
  { destruct (Z.eq_dec b 0%Z) as [->|]; [done|]. apply Z.log2_lt_pow2; lia. }
  lia.
Qed.

Lemma lxor_byte (a b : Z) :
  (0 <= a < 256)%Z -> (0 <= b < 256)%Z -> (0 <= Z.lxor a b < 256)%Z.
Proof.
  intros Ha Hb. split; [apply Z.lxor_nonneg; lia|].
  destruct (Z.eq_dec (Z.lxor a b) 0%Z) as [->|Hne]; [lia|].
  assert (Hpos : (0 < Z.lxor a b)%Z).
  { assert (0 <= Z.lxor a b)%Z by (apply Z.lxor_nonneg; lia). lia. }
  change 256%Z with (2 ^ 8)%Z. apply Z.log2_lt_pow2; [done|].
  pose proof (Z.log2_lxor a b (proj1 Ha) (proj1 Hb)) as Hl.
  assert (La : (Z.log2 a < 8)%Z).
  { destruct (Z.eq_dec a 0%Z) as [->|]; [done|]. apply Z.log2_lt_pow2; lia. }
  assert (Lb : (Z.log2 b < 8)%Z).
  { destruct (Z.eq_dec b 0%Z) as [->|]; [done|]. apply Z.log2_lt_pow2; lia. }
  lia.
Qed.

Lemma xorFold_range (x y : list byte) (v : Z) :
  (0 <= v < 256)%Z -> (0 <= subtle.xorFold v x y < 256)%Z.
Proof.
  revert y v. induction x as [|a x IH]; intros [|b y] v Hv; simpl; try done.
  apply IH, lor_byte; [done|]. apply lxor_byte; apply byteZ_range.
Qed.

(** The accumulator of the loop ends at zero exactly when it started at
    zero and no pair of bytes differed. *)
Lemma xorFold_zero (x y : list byte) (v : Z) :
  length x = length y -> (0 <= v < 256)%Z ->
  subtle.xorFold v x y = 0%Z <-> v = 0%Z /\ x = y.
Proof.
  revert y v. induction x as [|a x IH]; intros [|b y] v Hlen Hv; simpl in *; try done.
  - tauto.
  - injection Hlen as Hlen.
    pose proof (byteZ_range a) as Ra. pose proof (byteZ_range b) as Rb.
    rewrite IH by (try apply lor_byte; try apply lxor_byte; done).
    rewrite Z.lor_eq_0_iff, Z.lxor_eq_0_iff. split.
    + intros [[-> Hab%byteZ_inj] ->]. by subst.
    + intros [-> [= -> ->]]. done.
Qed.

Lemma ConstantTimeByteEq_zero (v : Z) :
  (0 <= v < 256)%Z -> subtle.ConstantTimeByteEq v 0 = 1%Z <-> v = 0%Z.
Proof.
  intros Hv. unfold subtle.ConstantTimeByteEq. rewrite Z.lxor_0_r. split.
  - intros H. destruct (Z.eq_dec v 0%Z) as [|Hne]; [done|].
    rewrite Z.mod_small, Z.shiftr_div_pow2, Z.div_small in H by lia. done.
  - by intros ->.
Qed.

(** [ConstantTimeCompare] answers 1 exactly on equal slices. *)
Lemma ConstantTimeCompare_eq (x y : list byte) :
  subtle.ConstantTimeCompare x y = 1%Z <-> x = y.
Proof.
  unfold subtle.ConstantTimeCompare.
  destruct (Nat.eqb_spec (length x) (length y)) as [Hlen|Hlen]; simpl.
  - rewrite ConstantTimeByteEq_zero by (apply xorFold_range; lia).
    rewrite xorFold_zero by (done || lia). tauto.
  - split; [done|]. intros ->. done.
Qed.

Lemma list_byte_of_string_inj (s t : string) :
  list_byte_of_string s = list_byte_of_string t -> s = t.
Proof.
  intros H. by rewrite <- (string_of_list_byte_of_string s), H, string_of_list_byte_of_string.
Qed.

(** On strings the comparison is string equality. *)
Lemma ConstantTimeCompare_string (s t : string) :
  (subtle.ConstantTimeCompare (list_byte_of_string s) (list_byte_of_string t) =? 1)%Z
  = bool_decide (s = t).
Proof.
  destruct (Z.eqb_spec (subtle.ConstantTimeCompare (list_byte_of_string s)
                          (list_byte_of_string t)) 1) as [H|H].
  - apply ConstantTimeCompare_eq, list_byte_of_string_inj in H.
    by rewrite bool_decide_eq_true_2.
  - rewrite bool_decide_eq_false_2; [done|]. intros ->.
    apply H. by apply ConstantTimeCompare_eq.
Qed.

(** ** Hexadecimal text *)

Lemma hex_EncodeToString_length (b : list byte) :
  String.length (hex.EncodeToString b) = (2 * length b)%nat.
Proof. induction b as [|a b IH]; simpl; [done|]. rewrite IH. lia. Qed.

(** ** The envelope *)

Section envelope.
Context `{P : Primitives}.

Lemma rand_Read_length (n : nat) (r : Rand) : length (fst (rand_Read n r)) = n.
Proof. unfold rand_Read. simpl. by rewrite length_map, length_seq. Qed.

(** A subkey can always be derived, and it is an AES-256 key. *)
Lemma DeriveSubkey_ok (key salt0 : list byte) (category : string) :
  exists subkey,
    crypto.DeriveSubkey key salt0 category = Ok subkey /\ length subkey = 32%nat.
Proof.
  unfold crypto.DeriveSubkey.
  destruct (hkdf_size key salt0 (list_byte_of_string category) crypto.keyLen)
    as (out & -> & Hlen); [unfold crypto.keyLen; lia|].
  by exists out.
Qed.

(** [Decrypt] undoes [Encrypt] under the same key. *)
Lemma Decrypt_Encrypt (key pt : list byte) (r : Rand) :
  crypto.aesKeySize (length key) = true ->
  exists data,
    crypto.Encrypt key pt r = (Ok data, snd (rand_Read crypto.nonceLen r))
    /\ crypto.Decrypt key data = Ok pt.
Proof.
  intros Hkey. unfold crypto.Encrypt, crypto.Decrypt. rewrite Hkey. simpl negb.
  pose proof (rand_Read_length crypto.nonceLen r) as Hn.
  destruct (rand_Read crypto.nonceLen r) as [nonce r'] eqn:Hr. simpl in Hn.
  eexists. split; [reflexivity|].
  rewrite length_app, gcm_Seal_size, Hn.
  destruct (Nat.ltb_spec (crypto.nonceLen + (length pt + 16)) (crypto.nonceLen + 1))
    as [Hlt|_]; [lia|].
  rewrite <- Hn at 1 2. rewrite take_app_length, drop_app_length.
  by rewrite gcm_Open_Seal.
Qed.

(** The same through base-64. *)
Lemma DecryptFromBase64_EncryptToBase64 (key pt : list byte) (r : Rand) :
  crypto.aesKeySize (length key) = true ->
  exists encoded,
    crypto.EncryptToBase64 key pt r = (Ok encoded, snd (rand_Read crypto.nonceLen r))
    /\ crypto.DecryptFromBase64 key encoded = Ok pt.
Proof.
  intros Hkey. destruct (Decrypt_Encrypt key pt r Hkey) as (data & He & Hd).
  unfold crypto.EncryptToBase64, crypto.DecryptFromBase64. rewrite He.
  eexists. split; [reflexivity|]. by rewrite base64_roundtrip.
Qed.

End envelope.

(** ** The access log *)

Lemma store_LogAccess_frame (e : store.AuditEntry) (r : Rand) (c : Clock) (d : store.DB) :
  exists err d' r' c',
    store.LogAccess e r c d = (err, d', r', c')
    /\ store.vault_fields d' = store.vault_fields d
    /\ store.vault_tokens d' = store.vault_tokens d
    /\ store.vault_meta d' = store.vault_meta d
    /\ (store.vault_access_log d' = store.vault_access_log d
        \/ exists row,
             store.vault_access_log d' = store.vault_access_log d ++ [row]
             /\ store.Consumer row = store.Consumer e
             /\ store.Scope row = store.Scope e
             /\ store.Action row = store.Action e
             /\ store.Purpose row = store.Purpose e).
Proof.
  unfold store.LogAccess.
  destruct (if String.eqb (store.EntryID e) "" then _ else _) as [id r'].
  destruct (if (store.CreatedAt e =? zeroTime)%Z then _ else _) as [created c'].
  destruct (existsb _ _).
  - eexists _, _, _, _. split; [reflexivity|]. auto.
  - eexists _, _, _, _. split; [reflexivity|]. simpl.
    repeat split; try done. right. eexists. split; [reflexivity|]. done.
Qed.

Section core.
Context `{P : Primitives}.

Lemma Unlocked_liveKey (v : vault.Vault) : isUnlocked v = true -> Unlocked v (liveKey v).
Proof.
  unfold isUnlocked, Unlocked, liveKey. destruct (vault.session v) as [s|]; [|done].
  destruct (vault.vaultKey s) as [key|] eqn:Hk; [|done]. intros _. by exists s.
Qed.

Lemma LogAccess_frame (e : store.AuditEntry) (v : vault.Vault) :
  vault.session (vault.LogAccess e v) = vault.session v
  /\ vault.salt (vault.LogAccess e v) = vault.salt v
  /\ store.vault_fields (vault.db (vault.LogAccess e v)) = store.vault_fields (vault.db v)
  /\ store.vault_tokens (vault.db (vault.LogAccess e v)) = store.vault_tokens (vault.db v)
  /\ store.vault_meta (vault.db (vault.LogAccess e v)) = store.vault_meta (vault.db v).
Proof.
  unfold vault.LogAccess.
  destruct (store_LogAccess_frame e (vault.rand v) (vault.clock v) (vault.db v))
    as (err & d' & r' & c' & -> & Hf & Ht & Hm & _).
  simpl. auto.
Qed.

Lemma LogAccess_log (e : store.AuditEntry) (v : vault.Vault) :
  store.vault_access_log (vault.db (vault.LogAccess e v)) = store.vault_access_log (vault.db v)
  \/ exists row,
       store.vault_access_log (vault.db (vault.LogAccess e v))
       = store.vault_access_log (vault.db v) ++ [row]
       /\ store.Consumer row = store.Consumer e
       /\ store.Scope row = store.Scope e
       /\ store.Action row = store.Action e
       /\ store.Purpose row = store.Purpose e.
Proof.
  unfold vault.LogAccess.
  destruct (store_LogAccess_frame e (vault.rand v) (vault.clock v) (vault.db v))
    as (err & d' & r' & c' & -> & _ & _ & _ & Hl).
  simpl. exact Hl.
Qed.

(** [requireUnlocked] on an unlocked vault hands out the key and re-arms
    the timer. *)
Lemma requireUnlocked_live (v : vault.Vault) (s : vault.Session) (key : list byte) :
  vault.session v = Some s -> vault.vaultKey s = Some key ->
  vault.requireUnlocked v = (Ok key, vault.with_session v (Some (vault.Touch s))).
Proof.
  intros Hs Hk. unfold vault.requireUnlocked. rewrite Hs.
  unfold vault.VaultKey. simpl. by rewrite Hk.
Qed.


(** On a valid identifier [SplitN] yields its two parts. *)
Lemma SplitN_valid (id : string) :
  ValidateFieldID id = None ->
  strings.SplitN id dot 2 = [prefixBeforeDot id; nameAfterDot id].
Proof.
  intros (c & n & -> & Hc & Hn)%ValidateFieldID_None.
  apply validIDPart_noDot in Hc.
  unfold prefixBeforeDot, nameAfterDot. simpl. by rewrite Cut_app.
Qed.

Lemma validTiers_nonempty (tier : string) : vault.validTiers tier = true -> tier <> "".
Proof. by intros H ->. Qed.

(** What a successful [Set] does: the value is sealed under the subkey of
    the identifier's category, the row is upserted with the normalised
    tier and the current time, the other tables and the session's key
    stay as they were. *)
Lemma Set_ok (id value tier : string) (v : vault.Vault) (key : list byte) :
  ValidateFieldID id = None ->
  Unlocked v key ->
  vault.validTiers (normalTier tier) = true ->
  exists subkey encrypted v',
    vault.Set_ id value tier v = (None, v')
    /\ crypto.DeriveSubkey key (vault.salt v) (prefixBeforeDot id) = Ok subkey
    /\ crypto.DecryptFromBase64 subkey encrypted = Ok (list_byte_of_string value)
    /\ Unlocked v' key
    /\ vault.salt v' = vault.salt v
    /\ store.vault_fields (vault.db v')
       = store.vault_fields
           (store.SetField (setRow id encrypted (normalTier tier) (nextTime (vault.clock v)))
              (vault.db v))
    /\ store.vault_tokens (vault.db v') = store.vault_tokens (vault.db v)
    /\ store.vault_meta (vault.db v') = store.vault_meta (vault.db v).
Proof.
  intros Hid (s & Hs & Hk) Htier.
  unfold vault.Set_. rewrite Hid, (requireUnlocked_live v s key Hs Hk).
  rewrite (SplitN_valid id Hid). simpl nth.
  destruct (DeriveSubkey_ok key (vault.salt v) (prefixBeforeDot id)) as (subkey & Hsub & Hlen).
  simpl vault.salt. rewrite Hsub.
  destruct (DecryptFromBase64_EncryptToBase64 subkey (list_byte_of_string value)
              (vault.rand v)) as (encrypted & He & Hd).
  { by rewrite Hlen. }
  simpl vault.rand. rewrite He.
  fold (normalTier tier). rewrite Htier. simpl negb. cbv iota.
  unfold time_Now. cbv iota beta.
  match goal with |- context [vault.LogAccess ?e ?w] =>
    destruct (LogAccess_frame e w) as (Ls & Lsalt & Lf & Lt & Lm) end.
  eexists subkey, encrypted, _. split; [reflexivity|].
  split; [done|]. split; [done|]. split.
  { exists (vault.Touch s). rewrite Ls. simpl. done. }
  rewrite Lsalt, Lf, Lt, Lm. simpl. done.
Qed.

(** What [Get] does on a row that opens. *)
Lemma Get_ok (id : string) (v : vault.Vault) (key subkey pt : list byte) (f : store.Field) :
  Unlocked v key ->
  store.vault_fields (vault.db v) !! id = Some f ->
  crypto.DeriveSubkey key (vault.salt v) (store.Category f) = Ok subkey ->
  crypto.DecryptFromBase64 subkey (store.Value f) = Ok pt ->
  exists v',
    vault.Get id v = (Ok (Some (vault.fieldInfo f (string_of_list_byte pt))), v')
    /\ Unlocked v' key.
Proof.
  intros (s & Hs & Hk) Hf Hsub Hdec.
  unfold vault.Get. rewrite (requireUnlocked_live v s key Hs Hk).
  unfold store.GetField. simpl vault.db. rewrite Hf.
  simpl vault.salt. rewrite Hsub, Hdec.
  eexists. split; [reflexivity|].
  match goal with |- context [vault.LogAccess ?e ?w] =>
    destruct (LogAccess_frame e w) as (Ls & _) end.
  exists (vault.Touch s). rewrite Ls. done.
Qed.

(** The row an upsert leaves keeps the identifier and the category of the
    row it replaces, takes the new value, and takes the new tier whenever
    that is not empty. *)
Lemma upsertRow_keyed (id : string) (old : option store.Field) (f : store.Field) :
  store.ID f = id -> store.Category f = prefixBeforeDot id ->
  (forall row, old = Some row ->
     store.ID row = id /\ store.Category row = prefixBeforeDot id) ->
  store.ID (store.upsertRow old f) = id
  /\ store.Category (store.upsertRow old f) = prefixBeforeDot id
  /\ store.Value (store.upsertRow old f) = store.Value f.
Proof.
  intros Hi Hc Hold. destruct old as [row|]; simpl; [|done].
  destruct (Hold row eq_refl) as [-> ->]. done.
Qed.

Lemma upsertRow_sensitivity (old : option store.Field) (f : store.Field) :
  store.Sensitivity f <> "" ->
  store.Sensitivity (store.upsertRow old f) = store.Sensitivity f.
Proof.
  intros Hne. destruct old as [row|]; simpl; [|done].
  destruct (String.eqb_spec (store.Sensitivity f) ""); done.
Qed.

(** C1: on an unlocked vault, [Set] on a valid identifier with an empty
    or valid tier succeeds, and the [Get] that follows returns the value
    that was set, the category named by the identifier, and the tier
    ([standard] for the empty one). *)
Theorem Set_Get_roundtrip (id value tier : string) (v : vault.Vault) (key : list byte) :
  ValidateFieldID id = None ->
  tier = "" \/ vault.validTiers tier = true ->
  Unlocked v key ->
  rowsKeyed (vault.db v) ->
  exists v1 v2 info,
    vault.Set_ id value tier v = (None, v1)
    /\ vault.Get id v1 = (Ok (Some info), v2)
    /\ vault.ID info = id
    /\ vault.Value info = value
    /\ vault.Category info = prefixBeforeDot id
    /\ vault.Sensitivity info = (if String.eqb tier "" then "standard" else tier).
Proof.
  intros Hid Htier Hunl Hkeyed.
  assert (Hnorm : vault.validTiers (normalTier tier) = true).
  { unfold normalTier. destruct Htier as [->|Ht]; [done|].
    destruct (String.eqb_spec tier ""); [by subst|done]. }
  destruct (Set_ok id value tier v key Hid Hunl Hnorm)
    as (subkey & encrypted & v1 & HSet & Hsub & Hdec & Hunl1 & Hsalt & Hfields & _).
  set (row := setRow id encrypted (normalTier tier) (nextTime (vault.clock v))) in *.
  set (stored := store.upsertRow (store.vault_fields (vault.db v) !! id) row).
  assert (Hlook : store.vault_fields (vault.db v1) !! id = Some stored).
  { rewrite Hfields. unfold store.SetField. simpl. apply lookup_insert_eq. }
  destruct (upsertRow_keyed id (store.vault_fields (vault.db v) !! id) row)
    as (Hsid & Hscat & Hsval); [done|done|by intros r Hr; apply (Hkeyed id r Hr)|].
  fold stored in Hsid, Hscat, Hsval.
  destruct (Get_ok id v1 key subkey (list_byte_of_string value) stored Hunl1 Hlook)
    as (v2 & HGet & _).
  { by rewrite Hsalt, Hscat. }
  { by rewrite Hsval. }
  exists v1, v2, (vault.fieldInfo stored (string_of_list_byte (list_byte_of_string value))).
  split; [done|]. split; [done|]. simpl.
  split; [done|]. split; [apply string_of_list_byte_of_string|]. split; [done|].
  unfold stored. rewrite upsertRow_sensitivity; [done|].
  simpl. by apply validTiers_nonempty.
Qed.

End core.

(** The witness of C1: the first scenario of the specification, replayed
    on a vault that already holds the field. *)
Lemma Set_Get_roundtrip_witness :
  exists v1 v2 info,
    vault.Set_ "identity.full_name" "Cool Cucumber" "" toy.populated = (None, v1)
    /\ vault.Get "identity.full_name" v1 = (Ok (Some info), v2)
    /\ vault.ID info = "identity.full_name"
    /\ vault.Value info = "Cool Cucumber"
    /\ vault.Category info = prefixBeforeDot "identity.full_name"
    /\ vault.Sensitivity info = "standard".
Proof.
  eapply (Set_Get_roundtrip "identity.full_name" "Cool Cucumber" "" toy.populated).
  - reflexivity.
  - by left.
  - apply Unlocked_liveKey. by vm_compute.
  - apply (bool_decide_unpack (rowsKeyed _)). by vm_compute.
Defined.

(** ** Unlock *)

Section unlock.
Context `{P : Primitives}.

(** C2: on an initialised, locked vault, an [Unlock] whose secret key
    hashes to something else than the stored hash, or whose derived key
    does not open the stored verification ciphertext, or opens it to
    another text than the constant, returns [ErrWrongPassword] and leaves
    the vault as it was: no session, no new audit entry. *)
Theorem Unlock_wrong_password (password secretKeyHex : string) (v : vault.Vault)
    (salt0 sk : list byte) :
  vault.session v = None ->
  store.IsInitialized (vault.db v) = true ->
  base64_DecodeString (store.GetMeta "salt" (vault.db v)) = Some salt0 ->
  hex.DecodeString (strings.TrimSpace secretKeyHex) = Some sk ->
  let key := crypto.DeriveVaultKey (list_byte_of_string password) sk salt0 in
  let opened :=
    crypto.DecryptFromBase64 key (store.GetMeta "verification" (vault.db v)) in
  hex.EncodeToString (sha256_Sum256 sk) <> store.GetMeta "secret_key_hash" (vault.db v)
  \/ (exists e, opened = Err e)
  \/ (exists plaintext,
        opened = Ok plaintext
        /\ plaintext <> list_byte_of_string vault.verificationText) ->
  vault.Unlock password secretKeyHex v = (Err ErrWrongPassword, v)
  /\ vault.session (snd (vault.Unlock password secretKeyHex v)) = None
  /\ store.vault_access_log (vault.db (snd (vault.Unlock password secretKeyHex v)))
     = store.vault_access_log (vault.db v).
Proof.
  intros Hs Hinit Hsalt Hsk key opened Hbad.
  assert (HU : vault.Unlock password secretKeyHex v = (Err ErrWrongPassword, v)).
  { unfold vault.Unlock. rewrite Hs, Hinit, Hsalt, Hsk. simpl negb. cbv iota.
    rewrite ConstantTimeCompare_string. unfold crypto.HashSecretKey.
    destruct (decide (store.GetMeta "secret_key_hash" (vault.db v)
                      = hex.EncodeToString (sha256_Sum256 sk))) as [Heq|Hne].
    - rewrite bool_decide_eq_true_2 by done. simpl negb. cbv iota.
      fold key. fold opened.
      destruct Hbad as [Hh|[[e He]|(pt & Hpt & Hdiff)]].
      + by destruct Hh.
      + by rewrite He.
      + rewrite Hpt.
        destruct (String.eqb_spec (string_of_list_byte pt) vault.verificationText)
          as [E|_]; [|done].
        destruct Hdiff. by rewrite <- E, list_byte_of_string_of_list_byte.
    - by rewrite bool_decide_eq_false_2. }
  rewrite HU. simpl. done.
Qed.

End unlock.

(** The witness of C2: the third scenario of the specification, a secret
    key of sixteen zero bytes against an initialised vault. *)
Lemma Unlock_wrong_password_witness :
  vault.Unlock "hunter2hunter2" "00000000000000000000000000000000" toy.opened
  = (Err ErrWrongPassword, toy.opened)
  /\ vault.session
       (snd (vault.Unlock "hunter2hunter2" "00000000000000000000000000000000" toy.opened))
     = None
  /\ store.vault_access_log
       (vault.db
          (snd (vault.Unlock "hunter2hunter2" "00000000000000000000000000000000" toy.opened)))
     = store.vault_access_log (vault.db toy.opened).
Proof.
  eapply (Unlock_wrong_password "hunter2hunter2" "00000000000000000000000000000000"
            toy.opened).
  - reflexivity.
  - by vm_compute.
  - reflexivity.
  - reflexivity.
  - left. by vm_compute.
Defined.

(** ** Lock and auto-lock *)

Section lock.
Context `{P : Primitives}.




End lock.


(** ** Privilege separation *)

Section gate.
Context `{P : Primitives}.
Variable ParseDuration : string -> option Z.




End gate.


(** ** The audit trail of the core *)

Section audit.
Context `{P : Primitives}.

(** [SetSensitivity] never writes to the access log, whatever it does to
    the field table. *)
Lemma SetSensitivity_log (id tier : string) (v : vault.Vault) :
  store.vault_access_log (vault.db (snd (vault.SetSensitivity id tier v)))
  = store.vault_access_log (vault.db v).
Proof.
  unfold vault.SetSensitivity, vault.requireUnlocked.
  destruct (vault.session v) as [s|]; [|done].
  destruct (vault.VaultKey (vault.Touch s)); [|done].
  by destruct (negb (vault.validTiers tier)).
Qed.

(** A successful [SetSensitivity] on a stored field changes its row. *)
Lemma SetSensitivity_updates (id tier : string) (v : vault.Vault) (key : list byte)
    (row : store.Field) :
  Unlocked v key -> vault.validTiers tier = true ->
  store.vault_fields (vault.db v) !! id = Some row ->
  exists v' row',
    vault.SetSensitivity id tier v = (None, v')
    /\ store.vault_fields (vault.db v') !! id = Some row'
    /\ store.Sensitivity row' = tier
    /\ store.Version row' = store.Version row.
Proof.
  intros (s & Hs & Hk) Ht Hrow. unfold vault.SetSensitivity.
  rewrite (requireUnlocked_live v s key Hs Hk), Ht. simpl.
  eexists _, _. split; [reflexivity|]. simpl.
  rewrite lookup_alter_eq, Hrow. simpl. done.
Qed.

(** The sibling [Delete] does write its entry, as soon as the random
    identifier it draws is not taken. *)
Lemma Delete_log (id : string) (v : vault.Vault) (key : list byte) :
  Unlocked v key ->
  exists v',
    vault.Delete id v = (None, v')
    /\ (store.vault_access_log (vault.db v') = store.vault_access_log (vault.db v)
        \/ exists entry,
             store.vault_access_log (vault.db v')
             = store.vault_access_log (vault.db v) ++ [entry]
             /\ store.Scope entry = id /\ store.Action entry = "delete").
Proof.
  intros (s & Hs & Hk). unfold vault.Delete.
  rewrite (requireUnlocked_live v s key Hs Hk).
  eexists. split; [reflexivity|].
  match goal with |- context [vault.LogAccess ?e ?w] =>
    destruct (LogAccess_log e w) as [Hl|(entry & Hl & _ & Hsc & Ha & _)] end.
  - left. by rewrite Hl.
  - right. exists entry. by rewrite Hl.
Qed.

End audit.

(** C6 at its failing input: on the populated vault, raising the tier of
    [identity.full_name] succeeds and rewrites the row, and the access
    log is the same list as before; deleting the field, for comparison,
    appends a [delete] entry. *)
Theorem SetSensitivity_not_audited :
  let before := toy.populated in
  let after := snd (vault.SetSensitivity "identity.full_name" "critical" before) in
  fst (vault.SetSensitivity "identity.full_name" "critical" before) = None
  /\ store.Sensitivity <$> store.vault_fields (vault.db before) !! "identity.full_name"
     = Some "standard"
  /\ store.Sensitivity <$> store.vault_fields (vault.db after) !! "identity.full_name"
     = Some "critical"
  /\ store.vault_access_log (vault.db after) = store.vault_access_log (vault.db before)
  /\ store.Action <$>
       store.vault_access_log (vault.db (snd (vault.Delete "identity.full_name" before)))
     = (store.Action <$> store.vault_access_log (vault.db before)) ++ ["delete"].
Proof. by vm_compute. Qed.

(** ** Versions and timestamps of the field table *)


Lemma SetField_lookup (f : store.Field) (d : store.DB) :
  store.vault_fields (store.SetField f d) !! store.ID f
  = Some (store.upsertRow (store.vault_fields d !! store.ID f) f).
Proof. unfold store.SetField. simpl. apply lookup_insert_eq. Qed.

Lemma SetField_lookup_ne (f : store.Field) (d : store.DB) (id : string) :
  id <> store.ID f ->
  store.vault_fields (store.SetField f d) !! id = store.vault_fields d !! id.
Proof. intros H. unfold store.SetField. simpl. by apply lookup_insert_ne. Qed.



(** ** The tier of [Set] *)

Section tier.
Context `{P : Primitives}.

(** [Set] with a tier outside the enumeration fails before it reaches the
    store. *)
Lemma Set_invalid_tier (id value tier : string) (v : vault.Vault) (key : list byte) :
  ValidateFieldID id = None ->
  Unlocked v key ->
  vault.validTiers (normalTier tier) = false ->
  exists v', vault.Set_ id value tier v = (Some ErrInvalidTier, v')
             /\ vault.db v' = vault.db v.
Proof.
  intros Hid (s & Hs & Hk) Htier.
  unfold vault.Set_. rewrite Hid, (requireUnlocked_live v s key Hs Hk).
  rewrite (SplitN_valid id Hid). simpl nth.
  destruct (DeriveSubkey_ok key (vault.salt v) (prefixBeforeDot id)) as (subkey & Hsub & Hlen).
  simpl vault.salt. rewrite Hsub.
  destruct (DecryptFromBase64_EncryptToBase64 subkey (list_byte_of_string value)
              (vault.rand v)) as (encrypted & He & _).
  { by rewrite Hlen. }
  simpl vault.rand. rewrite He.
  fold (normalTier tier). rewrite Htier. simpl.
  eexists. split; reflexivity.
Qed.

(** C8: on an unlocked vault and a valid identifier, [Set] with the empty
    tier stores [standard]; every successful [Set] hands the store a row
    whose tier is one of the four, so never the empty one that would keep
    the old tier; and [Set] with a non-empty tier outside the four fails
    with [ErrInvalidTier] and leaves the database as it was. *)
Theorem Set_tier (id value tier : string) (v : vault.Vault) (key : list byte) :
  ValidateFieldID id = None ->
  Unlocked v key ->
  (tier = "" ->
     exists v' row,
       vault.Set_ id value tier v = (None, v')
       /\ store.vault_fields (vault.db v') !! id = Some row
       /\ store.Sensitivity row = "standard")
  /\ (forall v', vault.Set_ id value tier v = (None, v') ->
        exists row,
          store.vault_fields (vault.db v')
          = store.vault_fields (store.SetField row (vault.db v))
          /\ store.ID row = id
          /\ store.Sensitivity row = normalTier tier
          /\ vault.validTiers (store.Sensitivity row) = true
          /\ store.Sensitivity row <> "")
  /\ (tier <> "" -> vault.validTiers tier = false ->
        exists v',
          vault.Set_ id value tier v = (Some ErrInvalidTier, v')
          /\ vault.db v' = vault.db v).
Proof.
  intros Hid Hunl. split; [|split].
  - intros ->.
    destruct (Set_ok id value "" v key Hid Hunl eq_refl)
      as (subkey & encrypted & v' & HSet & _ & _ & _ & _ & Hf & _).
    eexists v', _. split; [done|]. rewrite Hf.
    split; [apply (SetField_lookup (setRow id encrypted _ _))|].
    by rewrite upsertRow_sensitivity.
  - intros v' HSet.
    destruct (vault.validTiers (normalTier tier)) eqn:Ht.
    + destruct (Set_ok id value tier v key Hid Hunl Ht)
        as (subkey & encrypted & v1 & HSet1 & _ & _ & _ & _ & Hf & _).
      rewrite HSet in HSet1. injection HSet1 as <-.
      eexists. split; [exact Hf|]. simpl.
      split; [done|]. split; [done|]. split; [done|].
      by apply validTiers_nonempty.
    + destruct (Set_invalid_tier id value tier v key Hid Hunl Ht) as (v1 & HSet1 & _).
      by rewrite HSet in HSet1.
  - intros Hne Ht. apply (Set_invalid_tier id value tier v key Hid Hunl).
    unfold normalTier. by destruct (String.eqb_spec tier "").
Qed.

End tier.

(** The witness of C8: the tier ["secret"] on the unlocked vault. *)
Lemma Set_tier_witness :
  exists v',
    vault.Set_ "identity.full_name" "Cool Cucumber" "secret" toy.unlocked
    = (Some ErrInvalidTier, v')
    /\ vault.db v' = vault.db toy.unlocked.
Proof.
  refine (proj2 (proj2 (Set_tier "identity.full_name" "Cool Cucumber" "secret"
                          toy.unlocked _ eq_refl _)) _ eq_refl).
  - eexists. split; reflexivity.
  - done.
Defined.

(** ** The category listing *)



(** *** A scope that is one exact pattern *)





Lemma TrimLeft_noSpace (s : string) :
  allChars (fun c => negb (strings.isSpace c)) s = true -> strings.TrimLeft s = s.
Proof.
  destruct s as [|a s]; simpl; [done|].
  intros [Ha _]%andb_true_iff. apply negb_true_iff in Ha. by rewrite Ha.
Qed.

Lemma TrimRight_noSpace (s : string) :
  allChars (fun c => negb (strings.isSpace c)) s = true -> strings.TrimRight s = s.
Proof.
  induction s as [|a s IH]; simpl; [done|].
  intros [Ha Hs]%andb_true_iff. apply negb_true_iff in Ha.
  rewrite (IH Hs), Ha. by destruct s.
Qed.




Section listing.
Context `{P : Primitives}.




End listing.


Example category_listing_example :
  (vault.ID <$> match fst (api.handleGetByCategory
                            {| api.scopeKey := Some "identity.*"; api.sessionAuthKey := Some false |}
                            "identity" toy.crowded) with
               | {| api.body := api.FieldsBody fields |} => fields
               | _ => []
               end) = ["identity.dob"; "identity.full_name"]
  /\ (vault.Value <$> match fst (api.handleGetByCategory
                            {| api.scopeKey := Some "identity.full_name"; api.sessionAuthKey := Some false |}
                            "identity" toy.crowded) with
               | {| api.body := api.FieldsBody fields |} => fields
               | _ => []
               end) = ["Cool Cucumber"].
Proof. by vm_compute. Qed.

(** ** Revoking a service token *)

Lemma prefix_length (p x : string) :
  String.prefix p x = true -> (String.length p <= String.length x)%nat.
Proof.
  revert x. induction p as [|a p IH]; intros [|b x] H; simpl; try lia; try done.
  rewrite prefix_String in H. apply andb_true_iff in H as [_ H].
  apply IH in H. lia.
Qed.

Lemma prefix_same_length (p x : string) :
  String.prefix p x = true -> String.length p = String.length x -> p = x.
Proof.
  revert x. induction p as [|a p IH]; intros [|b x] H Hlen; simpl in Hlen; try done.
  rewrite prefix_String in H. apply andb_true_iff in H as [Hab H].
  apply Ascii.eqb_eq in Hab as ->. f_equal. apply IH; [done|lia].
Qed.

Lemma properPrefix_shorter (p x : string) :
  properPrefix p x -> (String.length p < String.length x)%nat.
Proof.
  intros [Hp Hne]. pose proof (prefix_length p x Hp) as Hle.
  destruct (decide (String.length p = String.length x)) as [E|]; [|lia].
  destruct Hne. by apply prefix_same_length.
Qed.

Section revoke.
Context `{P : Primitives}.

Lemma hashServiceToken_length (tok : string) :
  String.length (vault.hashServiceToken tok) = 64%nat.
Proof.
  unfold vault.hashServiceToken. by rewrite hex_EncodeToString_length, sha256_size.
Qed.

(** [RevokeServiceToken] on an unlocked vault deletes the row stored under
    the hash of its argument, and reports whether there was one. *)
Lemma RevokeServiceToken_ok (tok : string) (v : vault.Vault) (key : list byte) :
  Unlocked v key ->
  exists n v',
    vault.RevokeServiceToken tok v = (Ok n, v')
    /\ store.vault_tokens (vault.db v')
       = delete (vault.hashServiceToken tok) (store.vault_tokens (vault.db v))
    /\ n = match store.vault_tokens (vault.db v) !! vault.hashServiceToken tok with
           | Some _ => 1%Z
           | None => 0%Z
           end.
Proof.
  intros (s & Hs & Hk). unfold vault.RevokeServiceToken.
  rewrite (requireUnlocked_live v s key Hs Hk). unfold store.DeleteToken. simpl vault.db.
  destruct (store.vault_tokens (vault.db v) !! vault.hashServiceToken tok) as [t|] eqn:Ht.
  - simpl. eexists _, _. split; [reflexivity|].
    match goal with |- context [vault.LogAccess ?e ?w] =>
      destruct (LogAccess_frame e w) as (_ & _ & _ & Lt & _) end.
    rewrite Lt. done.
  - simpl. eexists _, _. split; [reflexivity|]. simpl.
    split; [|done]. symmetry. by apply delete_id.
Qed.

(** C10: revocation looks the token up under the hash of the supplied
    value.  With no hash collision between that value and the raw tokens
    behind the stored rows, a row is deleted only when the value is one of
    those raw tokens; any other value - a stored hash, a proper prefix of
    a raw token or of a hash - deletes nothing and is answered 404
    [not_found]. *)
Theorem revoke_hashes_its_argument (r : api.Ctx) (tok : string) (v : vault.Vault)
    (key : list byte) (raws : list string) :
  api.isSessionAuth r = true ->
  tok <> "" ->
  Unlocked v key ->
  issuedFrom raws (vault.db v) ->
  (forall raw, raw ∈ raws -> String.length raw = 64%nat) ->
  (forall raw, raw ∈ raws ->
     vault.hashServiceToken tok = vault.hashServiceToken raw -> tok = raw) ->
  (exists n v',
     vault.RevokeServiceToken tok v = (Ok n, v')
     /\ store.vault_tokens (vault.db v')
        = delete (vault.hashServiceToken tok) (store.vault_tokens (vault.db v))
     /\ (n = 1%Z /\ tok ∈ raws \/ n = 0%Z))
  /\ (tok ∉ raws ->
        exists v',
          api.handleRevokeServiceToken r tok v
          = (api.writeError 404 "not_found" "no matching token found", v')
          /\ store.vault_tokens (vault.db v') = store.vault_tokens (vault.db v))
  /\ (forall x, (x ∈ raws \/ exists raw, x = vault.hashServiceToken raw) ->
        properPrefix tok x -> tok ∉ raws)
  /\ (forall raw, tok = vault.hashServiceToken raw ->
        vault.hashServiceToken raw ∉ raws -> tok ∉ raws).
Proof.
  intros Hr Hne Hunl Hissued Hlen Hcoll.
  destruct (RevokeServiceToken_ok tok v key Hunl) as (n & v' & HRev & Htok & Hn).
  assert (Hin : forall t, store.vault_tokens (vault.db v) !! vault.hashServiceToken tok
                          = Some t -> tok ∈ raws).
  { intros t Ht. pose proof (Hissued _ _ Ht) as Hrow.
    apply list_elem_of_fmap in Hrow as (raw & Hh & Hraw).
    by rewrite (Hcoll raw Hraw Hh). }
  repeat split.
  - exists n, v'. split; [done|]. split; [done|].
    destruct (store.vault_tokens (vault.db v) !! vault.hashServiceToken tok) as [t|] eqn:Ht.
    + left. split; [done|]. by eapply Hin.
    + by right.
  - intros Hnot. exists v'. unfold api.handleRevokeServiceToken.
    rewrite Hr. simpl negb. cbv iota.
    destruct (String.eqb_spec tok "") as [|_]; [done|]. rewrite HRev.
    destruct (store.vault_tokens (vault.db v) !! vault.hashServiceToken tok) as [t|] eqn:Ht.
    { destruct Hnot. by eapply Hin. }
    subst n. simpl. split; [done|]. rewrite Htok. by apply delete_id.
  - intros x Hx Hpre%properPrefix_shorter Hraw.
    assert (String.length x = 64%nat) as Hx64.
    { destruct Hx as [Hx|[raw ->]]; [by apply Hlen|apply hashServiceToken_length]. }
    apply Hlen in Hraw. lia.
  - by intros raw ->.
Qed.

End revoke.

(** The witness of C10: the stored hash of the one service token, supplied
    in place of the raw token. *)
Lemma revoke_hashes_its_argument_witness :
  let r := {| api.scopeKey := Some "*"; api.sessionAuthKey := Some true |} in
  let tok := vault.hashServiceToken toy.rawToken in
  exists v',
    api.handleRevokeServiceToken r tok toy.tokened
    = (api.writeError 404 "not_found" "no matching token found", v')
    /\ store.vault_tokens (vault.db v') = store.vault_tokens (vault.db toy.tokened).
Proof.
  intros r tok.
  refine (proj1 (proj2 (revoke_hashes_its_argument r tok toy.tokened
                          (liveKey toy.tokened) [toy.rawToken]
                          eq_refl _ _ _ _ _)) _).
  - by vm_compute.
  - apply Unlocked_liveKey. by vm_compute.
  - apply (bool_decide_unpack (issuedFrom _ _)). by vm_compute.
  - apply (proj1 (Forall_forall (fun raw => String.length raw = 64%nat) _)).
    apply (bool_decide_unpack _). by vm_compute.
  - intros raw ->%list_elem_of_singleton Hh. by vm_compute in Hh.
  - intros Hin%list_elem_of_singleton. by vm_compute in Hin.
Defined.

(** * Further properties of the code *)

(** ** Hexadecimal text, both ways *)

Lemma fromHexChar_digit (n : N) :
  (n < 16)%N -> hex.fromHexChar (hex.digit n) = Some n.
Proof.
  intros Hn.
  assert (Hcases : In n (map N.of_nat (seq 0 16))).
  { apply in_map_iff. exists (N.to_nat n). split; [lia|]. apply in_seq. lia. }
  simpl in Hcases.
  repeat (destruct Hcases as [<-|Hcases]; [by vm_compute|]). done.
Qed.

Lemma digit_plain (n : N) :
  (n < 16)%N -> negb (strings.isSpace (hex.digit n)) = true.
Proof.
  intros Hn.
  assert (Hcases : In n (map N.of_nat (seq 0 16))).
  { apply in_map_iff. exists (N.to_nat n). split; [lia|]. apply in_seq. lia. }
  simpl in Hcases.
  repeat (destruct Hcases as [<-|Hcases]; [by vm_compute|]). done.
Qed.

Lemma byteOf_to_N (b : byte) :
  hex.byteOf (Byte.to_N b / 16 * 16 + Byte.to_N b mod 16) = b.
Proof.
  replace (Byte.to_N b / 16 * 16 + Byte.to_N b mod 16)%N with (Byte.to_N b).
  - unfold hex.byteOf. by rewrite Byte.of_to_N.
  - pose proof (N.div_mod (Byte.to_N b) 16). lia.
Qed.

Lemma byte_nibbles (b : byte) :
  (Byte.to_N b / 16 < 16)%N /\ (Byte.to_N b mod 16 < 16)%N.
Proof.
  pose proof (Byte.to_N_bounded b) as Hb. split.
  - apply N.Div0.div_lt_upper_bound. lia.
  - apply N.mod_lt. lia.
Qed.

(** [DecodeString] reads back what [EncodeToString] wrote. *)
Lemma hex_Decode_Encode (b : list byte) :
  hex.DecodeString (hex.EncodeToString b) = Some b.
Proof.
  induction b as [|a b IH]; [done|].
  destruct (byte_nibbles a) as [Hhi Hlo].
  cbn [hex.EncodeToString hex.DecodeString].
  by rewrite (fromHexChar_digit _ Hhi), (fromHexChar_digit _ Hlo), IH, byteOf_to_N.
Qed.

Lemma hex_Encode_noSpace (b : list byte) :
  allChars (fun c => negb (strings.isSpace c)) (hex.EncodeToString b) = true.
Proof.
  induction b as [|a b IH]; [done|].
  destruct (byte_nibbles a) as [Hhi Hlo].
  cbn [hex.EncodeToString allChars].
  by rewrite (digit_plain _ Hhi), (digit_plain _ Hlo), IH.
Qed.

Lemma TrimSpace_hex (b : list byte) :
  strings.TrimSpace (hex.EncodeToString b) = hex.EncodeToString b.
Proof.
  unfold strings.TrimSpace.
  by rewrite (TrimLeft_noSpace _ (hex_Encode_noSpace b)),
    (TrimRight_noSpace _ (hex_Encode_noSpace b)).
Qed.

(** ** Initialising and unlocking *)

Section init.
Context `{P : Primitives}.

Lemma DeriveVaultKey_aes (password sk salt0 : list byte) :
  crypto.aesKeySize (length (crypto.DeriveVaultKey password sk salt0)) = true.
Proof. unfold crypto.DeriveVaultKey. by rewrite argon2_size. Qed.

(** What [Init] leaves in a fresh directory: the three metadata rows and
    nothing else; the verification text opens under the derived key. *)
Lemma Init_ok (password : string) (r : Rand) :
  exists (salt0 sk : list byte) (verify : string) (r' : Rand),
    vault.Init None password r
    = (Ok (hex.EncodeToString sk,
           store.SetMeta "verification" verify
             (store.SetMeta "secret_key_hash" (hex.EncodeToString (sha256_Sum256 sk))
                (store.SetMeta "salt" (base64_EncodeToString salt0) store.empty))), r')
    /\ length salt0 = 32%nat /\ length sk = 16%nat
    /\ crypto.DecryptFromBase64
         (crypto.DeriveVaultKey (list_byte_of_string password) sk salt0) verify
       = Ok (list_byte_of_string vault.verificationText).
Proof.
  unfold vault.Init, crypto.GenerateSalt, crypto.GenerateSecretKey.
  pose proof (rand_Read_length crypto.saltLen r) as Hsalt.
  destruct (rand_Read crypto.saltLen r) as [salt0 r1]. simpl in Hsalt.
  pose proof (rand_Read_length crypto.secretKeyLen r1) as Hsk.
  destruct (rand_Read crypto.secretKeyLen r1) as [sk r2]. simpl in Hsk.
  destruct (DecryptFromBase64_EncryptToBase64
              (crypto.DeriveVaultKey (list_byte_of_string password) sk salt0)
              (list_byte_of_string vault.verificationText) r2
              (DeriveVaultKey_aes _ _ _)) as (verify & He & Hd).
  rewrite He. eexists salt0, sk, verify, _. done.
Qed.

(** The vault [Init] created unlocks with the password it was created
    with and the secret key [Init] returned: a session is installed under
    the derived 32-byte key, the token returned has 64 characters and
    validates, and the access log holds the one [unlock] entry.  (The
    base-64 text of the salt has to be non-empty for the vault to count
    as initialised, as it is for Go's encoding.) *)
Theorem Init_then_Unlock (password : string) (r : Rand) (c : Clock) :
  (forall b, base64_EncodeToString b = "" -> b = []) ->
  exists sk d r' tok v key,
    vault.Init None password r = (Ok (sk, d), r')
    /\ String.length sk = 32%nat
    /\ vault.Unlock password sk (vault.Open d r' c) = (Ok tok, v)
    /\ String.length tok = 64%nat
    /\ vault.ValidateToken tok v = true
    /\ Unlocked v key /\ length key = 32%nat
    /\ store.Action <$> store.vault_access_log (vault.db v) = ["unlock"]
    /\ store.vault_fields (vault.db v) = ∅.
Proof.
  intros Hb64.
  destruct (Init_ok password r) as (salt0 & sk & verify & r' & HInit & Hsalt & Hsk & Hopen).
  set (d := store.SetMeta "verification" verify _) in HInit.
  assert (Hm1 : store.GetMeta "salt" d = base64_EncodeToString salt0) by done.
  assert (Hm2 : store.GetMeta "secret_key_hash" d = hex.EncodeToString (sha256_Sum256 sk))
    by done.
  assert (Hm3 : store.GetMeta "verification" d = verify).
  { unfold store.GetMeta, d, store.SetMeta. simpl. by rewrite lookup_insert_eq. }
  assert (Hinit : store.IsInitialized d = true).
  { unfold store.IsInitialized. rewrite Hm1. apply negb_true_iff, String.eqb_neq.
    intros E%Hb64. by rewrite E in Hsalt. }
  exists (hex.EncodeToString sk), d, r'.
  destruct (vault.Unlock password (hex.EncodeToString sk) (vault.Open d r' c))
    as [res v] eqn:HU.
  unfold vault.Unlock in HU. simpl vault.session in HU. cbv iota in HU.
  simpl vault.db in HU.
  rewrite Hinit, Hm1, base64_roundtrip, TrimSpace_hex, hex_Decode_Encode, Hm2, Hm3 in HU.
  simpl negb in HU. cbv iota in HU.
  rewrite ConstantTimeCompare_string in HU. unfold crypto.HashSecretKey in HU.
  rewrite bool_decide_eq_true_2 in HU by done. simpl negb in HU. cbv iota in HU.
  rewrite Hopen, string_of_list_byte_of_string, String.eqb_refl in HU.
  simpl negb in HU. cbv iota in HU.
  unfold vault.NewSession, rand_Read in HU. cbv beta iota zeta in HU.
  set (bs := map (randTape (vault.rand (vault.with_salt (vault.Open d r' c) salt0)))
               (seq (randPos (vault.rand (vault.with_salt (vault.Open d r' c) salt0))) 32))
    in HU.
  assert (Hbs : String.length (hex.EncodeToString bs) = 64%nat).
  { rewrite hex_EncodeToString_length. unfold bs. by rewrite length_map, length_seq. }
  clearbody bs. set (tok := hex.EncodeToString bs) in *. clearbody tok.
  unfold vault.Token in HU. cbn [vault.token] in HU.
  injection HU as <- <-.
  match goal with |- context [vault.LogAccess ?e ?w] =>
    destruct (LogAccess_frame e w) as (Ls & _ & Lf & _);
    destruct (LogAccess_log e w) as [Ll|(row & Ll & _ & _ & La & _)] end.
  { exfalso. revert Ll. unfold vault.LogAccess, store.LogAccess.
    cbn -[rand_Read hex.EncodeToString RFC3339 zeroTime].
    destruct (rand_Read 16 _) as [idb r3]. simpl.
    intros E. by apply (f_equal length) in E. }
  eexists tok, _, _.
  split; [exact HInit|]. split; [by rewrite hex_EncodeToString_length, Hsk|].
  split; [reflexivity|]. split; [done|].
  split.
  { unfold vault.ValidateToken. rewrite Ls. cbn [vault.session vault.with_session].
    unfold vault.Session_ValidateToken. cbn [vault.token].
    rewrite ConstantTimeCompare_string, bool_decide_eq_true_2 by done.
    destruct (String.eqb_spec tok "") as [E|_]; [|done].
    by rewrite E in Hbs. }
  split.
  { eexists. rewrite Ls. cbn [vault.session vault.with_session]. done. }
  split; [apply argon2_size|].
  split; [by rewrite Ll, fmap_app; cbn; rewrite La|].
  by rewrite Lf.
Qed.

End init.

(** The witness of [Init_then_Unlock]: the small instance, whose base-64
    is the identity on bytes. *)
Lemma Init_then_Unlock_witness :
  exists sk d r' tok v key,
    vault.Init None "hunter2hunter2" toy.rand0 = (Ok (sk, d), r')
    /\ String.length sk = 32%nat
    /\ vault.Unlock "hunter2hunter2" sk (vault.Open d r' toy.clock0) = (Ok tok, v)
    /\ String.length tok = 64%nat
    /\ vault.ValidateToken tok v = true
    /\ Unlocked v key /\ length key = 32%nat
    /\ store.Action <$> store.vault_access_log (vault.db v) = ["unlock"]
    /\ store.vault_fields (vault.db v) = ∅.
Proof.
  apply (Init_then_Unlock "hunter2hunter2" toy.rand0 toy.clock0).
  intros b Hb. apply (f_equal list_byte_of_string) in Hb.
  simpl in Hb. by rewrite list_byte_of_string_of_list_byte in Hb.
Defined.

(** ** The session token *)

Section session.
Context `{P : Primitives}.

(** [Session.ValidateToken] accepts the session's own token and nothing
    else; a session whose token was cleared accepts nothing. *)
Theorem Session_ValidateToken_exact (s : vault.Session) (tok : string) :
  vault.Session_ValidateToken s tok = true <-> vault.token s <> "" /\ tok = vault.token s.
Proof.
  unfold vault.Session_ValidateToken.
  destruct (String.eqb_spec (vault.token s) "") as [E|Hne].
  - split; [done|]. by intros [? _].
  - rewrite ConstantTimeCompare_string, bool_decide_eq_true.
    split; [by intros <-|by intros [_ ->]].
Qed.

(** [Touch] re-arms the timer and leaves the key and the token alone; on
    a destroyed session it does nothing. *)
Lemma Touch_keeps (s : vault.Session) :
  vault.token (vault.Touch s) = vault.token s
  /\ vault.vaultKey (vault.Touch s) = vault.vaultKey s
  /\ vault.Touch (vault.Destroy s) = vault.Destroy s.
Proof. done. Qed.

(** ** Lock *)

(** [Lock] is idempotent: on a locked vault it changes nothing (no audit
    entry either); on an unlocked one it removes the session, leaves the
    three data tables alone and appends at most the one [lock] entry. *)
Theorem Lock_idempotent (v : vault.Vault) :
  vault.Lock (vault.Lock v) = vault.Lock v
  /\ (vault.session v = None -> vault.Lock v = v)
  /\ vault.session (vault.Lock v) = None
  /\ store.vault_fields (vault.db (vault.Lock v)) = store.vault_fields (vault.db v)
  /\ store.vault_tokens (vault.db (vault.Lock v)) = store.vault_tokens (vault.db v)
  /\ store.vault_meta (vault.db (vault.Lock v)) = store.vault_meta (vault.db v)
  /\ (store.vault_access_log (vault.db (vault.Lock v)) = store.vault_access_log (vault.db v)
      \/ exists entry,
           store.vault_access_log (vault.db (vault.Lock v))
           = store.vault_access_log (vault.db v) ++ [entry]
           /\ store.Action entry = "lock" /\ store.Consumer entry = "vault").
Proof.
  unfold vault.Lock. destruct (vault.session v) as [s|] eqn:Hs.
  - match goal with |- context [vault.LogAccess ?e ?w] =>
      destruct (LogAccess_frame e w) as (Ls & _ & Lf & Lt & Lm);
      destruct (LogAccess_log e w) as [Ll|(row & Ll & Lc & _ & La & _)] end.
    + simpl. rewrite Lf, Lt, Lm, Ll. repeat split; try done. by left.
    + simpl. rewrite Lf, Lt, Lm, Ll. repeat split; try done. right. by exists row.
  - rewrite Hs. repeat split; try done. by left.
Qed.

(** ** Deleting a field *)

(** After [Delete] the field is gone: [Get] answers nil without an error
    and without an audit entry of its own; the other rows are untouched.
    [Delete] succeeds whether or not the field was there. *)
Theorem Delete_then_Get (id : string) (v : vault.Vault) (key : list byte) :
  Unlocked v key ->
  exists v1 v2,
    vault.Delete id v = (None, v1)
    /\ vault.Get id v1 = (Ok None, v2)
    /\ vault.db v2 = vault.db v1
    /\ store.vault_fields (vault.db v1) = delete id (store.vault_fields (vault.db v))
    /\ forall id', id' <> id ->
         store.vault_fields (vault.db v1) !! id' = store.vault_fields (vault.db v) !! id'.
Proof.
  intros (s & Hs & Hk). unfold vault.Delete.
  rewrite (requireUnlocked_live v s key Hs Hk).
  match goal with |- context [vault.LogAccess ?e ?w] =>
    destruct (LogAccess_frame e w) as (Ls & _ & Lf & _);
    set (v1 := vault.LogAccess e w) in * end.
  assert (Hf : store.vault_fields (vault.db v1) = delete id (store.vault_fields (vault.db v)))
    by (by rewrite Lf).
  exists v1. unfold vault.Get.
  rewrite (requireUnlocked_live v1 (vault.Touch s) key Ls Hk).
  unfold store.GetField. simpl vault.db. rewrite Hf, lookup_delete_eq.
  eexists. split; [reflexivity|]. split; [reflexivity|].
  split; [done|]. split; [done|]. intros id' Hne. by apply lookup_delete_ne.
Qed.

End session.

(** The witness of [Delete_then_Get]. *)
Lemma Delete_then_Get_witness :
  exists v1 v2,
    vault.Delete "identity.full_name" toy.populated = (None, v1)
    /\ vault.Get "identity.full_name" v1 = (Ok None, v2)
    /\ vault.db v2 = vault.db v1
    /\ store.vault_fields (vault.db v1)
       = delete "identity.full_name" (store.vault_fields (vault.db toy.populated))
    /\ forall id', id' <> "identity.full_name" ->
         store.vault_fields (vault.db v1) !! id'
         = store.vault_fields (vault.db toy.populated) !! id'.
Proof.
  eapply (Delete_then_Get "identity.full_name" toy.populated).
  apply Unlocked_liveKey. by vm_compute.
Defined.

(** ** An invariant of the field table *)

Section invariant.
Context `{P : Primitives}.

Lemma requireUnlocked_frame (v v1 : vault.Vault) (r : result (list byte)) :
  vault.requireUnlocked v = (r, v1) ->
  vault.db v1 = vault.db v /\ vault.salt v1 = vault.salt v
  /\ vault.rand v1 = vault.rand v /\ vault.clock v1 = vault.clock v.
Proof.
  unfold vault.requireUnlocked. destruct (vault.session v) as [s|].
  - destruct (vault.VaultKey (vault.Touch s)); by intros [= <- <-].
  - by intros [= <- <-].
Qed.

Lemma fields_LogAccess (e : store.AuditEntry) (v : vault.Vault) :
  store.vault_fields (vault.db (vault.LogAccess e v)) = store.vault_fields (vault.db v).
Proof. by destruct (LogAccess_frame e v) as (_ & _ & ? & _). Qed.

(** The operations that only read the field table leave it alone. *)
Lemma fields_readers (op : Privileged) (v : vault.Vault) :
  match op with
  | OpSet _ _ _ | OpDelete _ | OpSetSensitivity _ _ => True
  | _ => store.vault_fields (vault.db (snd (run op v))) = store.vault_fields (vault.db v)
  end.
Proof.
  destruct op; try done; simpl;
    unfold vault.Get, vault.List, vault.ListByCategory, vault.GetByCategory,
      vault.GetContext, vault.CreateServiceToken, vault.ListServiceTokens,
      vault.RevokeServiceToken;
    destruct (vault.requireUnlocked v) as [[key|e] v1] eqn:Hreq;
    apply requireUnlocked_frame in Hreq as (Hdb & _); try (simpl; by rewrite Hdb).
  - unfold store.GetField. destruct (store.vault_fields (vault.db v1) !! id);
      [|simpl; by rewrite Hdb].
    destruct (crypto.DeriveSubkey _ _ _); [|simpl; by rewrite Hdb].
    destruct (crypto.DecryptFromBase64 _ _); simpl;
      rewrite ?fields_LogAccess; by rewrite Hdb.
  - destruct (crypto.DeriveSubkey _ _ _); [|simpl; by rewrite Hdb].
    destruct (vault.decryptAll _ _); simpl; rewrite ?fields_LogAccess; by rewrite Hdb.
  - destruct (vault.contextLoop _ _ _ _ _); simpl;
      rewrite ?fields_LogAccess; by rewrite Hdb.
  - unfold rand_Read, time_Now, store.CreateToken. cbv beta iota zeta.
    cbn [vault.db vault.with_clock vault.with_rand store.TokenStr].
    destruct (store.vault_tokens (vault.db v1) !! _); simpl;
      rewrite ?fields_LogAccess; simpl; by rewrite Hdb.
  - unfold store.DeleteToken.
    destruct (store.vault_tokens (vault.db v1) !! _); simpl;
      rewrite ?fields_LogAccess; simpl; by rewrite Hdb.
Qed.

Lemma rowsKeyed_fields (d d' : store.DB) :
  store.vault_fields d' = store.vault_fields d -> rowsKeyed d -> rowsKeyed d'.
Proof. unfold rowsKeyed. by intros ->. Qed.

(** Every privileged operation keeps each row under its own identifier
    and in the category its identifier names. *)
Lemma rowsKeyed_run (op : Privileged) (v : vault.Vault) :
  rowsKeyed (vault.db v) -> rowsKeyed (vault.db (snd (run op v))).
Proof.
  intros Hk. pose proof (fields_readers op v) as Hread.
  destruct op; try (by eapply rowsKeyed_fields); clear Hread; simpl.
  - (* Set *)
    unfold vault.Set_. destruct (ValidateFieldID id) eqn:Hid; [done|].
    destruct (vault.requireUnlocked v) as [[key|e] v1] eqn:Hreq;
      apply requireUnlocked_frame in Hreq as (Hdb & _);
      [|simpl; by rewrite Hdb].
    rewrite (SplitN_valid id Hid). simpl nth.
    destruct (crypto.DeriveSubkey _ _ _); [|simpl; by rewrite Hdb].
    destruct (crypto.EncryptToBase64 _ _ _) as [[encrypted|e] r']; [|simpl; by rewrite Hdb].
    destruct (negb (vault.validTiers _)); [simpl; by rewrite Hdb|].
    unfold time_Now. cbv beta iota zeta.
    eapply rowsKeyed_fields; [apply fields_LogAccess|].
    unfold rowsKeyed. cbn [vault.db vault.with_db vault.with_clock vault.with_rand].
    unfold store.SetField. cbn [store.vault_fields store.with_fields store.ID].
    rewrite Hdb. apply map_Forall_insert_2; [|done].
    unfold rowKeyed.
    match goal with |- context [store.upsertRow ?o ?f] =>
      destruct (upsertRow_keyed id o f) as (Hi & Hc & _) end; try done.
    intros row Hrow. by apply (Hk id row).
  - (* Delete *)
    unfold vault.Delete.
    destruct (vault.requireUnlocked v) as [[key|e] v1] eqn:Hreq;
      apply requireUnlocked_frame in Hreq as (Hdb & _);
      [|simpl; by rewrite Hdb].
    eapply rowsKeyed_fields; [apply fields_LogAccess|].
    unfold rowsKeyed. simpl. rewrite Hdb. by apply map_Forall_delete.
  - (* SetSensitivity *)
    unfold vault.SetSensitivity.
    destruct (vault.requireUnlocked v) as [[key|e] v1] eqn:Hreq;
      apply requireUnlocked_frame in Hreq as (Hdb & _);
      [|simpl; by rewrite Hdb].
    destruct (negb (vault.validTiers tier)); [simpl; by rewrite Hdb|].
    unfold store.SetSensitivity, time_Now. simpl. rewrite Hdb.
    unfold rowsKeyed. intros i row. simpl.
    rewrite lookup_alter. case_decide as Hi.
    + subst i.
      destruct (store.vault_fields (vault.db v) !! id) as [old|] eqn:Hold; [|done].
      intros [= <-]. by apply (Hk id old).
    + apply Hk.
Qed.

Lemma rowsKeyed_Step (v v' : vault.Vault) :
  Step v v' -> rowsKeyed (vault.db v) -> rowsKeyed (vault.db v').
Proof.
  intros HS Hk. destruct HS.
  - by apply rowsKeyed_run.
  - (* Unlock *)
    unfold vault.Unlock. destruct (vault.session v); [done|].
    destruct (negb _); [done|].
    destruct (base64_DecodeString _); [|done].
    destruct (hex.DecodeString _); [|done].
    destruct (negb _); [done|].
    destruct (crypto.DecryptFromBase64 _ _); [|done].
    destruct (negb _); [done|].
    unfold vault.NewSession, rand_Read. cbv beta iota zeta. simpl snd.
    eapply rowsKeyed_fields; [apply fields_LogAccess|]. done.
  - unfold vault.Lock. destruct (vault.session v); [|done]. simpl.
    eapply rowsKeyed_fields; [apply fields_LogAccess|]. done.
  - unfold vault.timerFires. by destruct (vault.session v).
  - unfold vault.TouchSession. by destruct (vault.session v).
  - eapply rowsKeyed_fields; [apply fields_LogAccess|]. done.
  - unfold vault.ValidateServiceToken, store.GetToken.
    destruct (store.vault_tokens (vault.db v) !! _) as [t|]; simpl; [|done].
    destruct (_ <? _)%Z; simpl; [done|]. by destruct (negb _).
Qed.

(** In every vault reachable from [Init] through the operations of the
    core, each stored row sits under its own identifier and carries the
    category that identifier names. *)
Theorem rowsKeyed_invariant (v : vault.Vault) :
  Reachable v -> rowsKeyed (vault.db v).
Proof.
  induction 1 as [password sk d r0 r r' c HInit|v v' _ IH HS].
  - destruct (Init_ok password r0) as (salt0 & skb & verify & r1 & HI & _).
    rewrite HI in HInit. injection HInit as _ <- _.
    unfold rowsKeyed. simpl. apply map_Forall_empty.
  - by eapply rowsKeyed_Step.
Qed.

End invariant.

(** The witness of [rowsKeyed_invariant]: the vault made by [Init], opened,
    unlocked and written to twice. *)
Lemma rowsKeyed_invariant_witness :
  rowsKeyed (vault.db
    (snd (run (OpSet "financial.income" "100" "sensitive")
      (snd (run (OpSet "identity.full_name" "Cool Cucumber" "")
        (snd (vault.Unlock "hunter2hunter2" toy.secretKey
          (vault.Open (snd (fst toy.initialised)) (snd toy.initialised)
             toy.clock0)))))))).
Proof.
  apply rowsKeyed_invariant.
  eapply reach_Step; [|apply step_run].
  eapply reach_Step; [|apply step_run].
  eapply reach_Step; [|apply step_Unlock].
  apply (reach_Open "hunter2hunter2" toy.secretKey _ toy.rand0 (snd toy.initialised)).
  by vm_compute.
Defined.

(** ** The two scope checks of the category route *)

Lemma scopeStep_true (id p : string) : scopeStep id p <> Some false.
Proof.
  unfold scopeStep. destruct (String.eqb _ "*"); [done|].
  destruct (strings.HasSuffix _ ".*").
  - by destruct (strings.HasPrefix _ _).
  - by destruct (String.eqb _ id).
Qed.

Lemma scopeCategoryStep_true (category p : string) :
  scopeCategoryStep category p <> Some false.
Proof.
  unfold scopeCategoryStep. destruct (String.eqb _ "*"); [done|].
  destruct (strings.HasSuffix _ ".*").
  - by destruct (String.eqb _ category).
  - by destruct (strings.HasPrefix _ _).
Qed.

(** A pattern that lets the field [c.n] through lets its category [c]
    through. *)
Lemma scopeStep_category (c n p0 : string) :
  noDot c = true -> noDot n = true ->
  scopeStep (c ++ String dot n) p0 = Some true ->
  scopeCategoryStep c p0 = Some true.
Proof.
  intros Hc Hn. unfold scopeStep, scopeCategoryStep.
  generalize (strings.TrimSpace p0). intros p.
  destruct (String.eqb p "*"); [done|].
  destruct (strings.HasSuffix p ".*").
  - rewrite (HasPrefix_category c n _ Hc Hn).
    destruct (String.eqb_spec c (strings.TrimSuffix p ".*")) as [->|]; [|done].
    by rewrite String.eqb_refl.
  - destruct (String.eqb_spec p (c ++ String dot n)) as [->|]; [|done].
    by rewrite (HasPrefix_category c n c Hc Hn), String.eqb_refl.
Qed.

(** The category check of the category route never hides a field the
    scope allows: whenever [ScopeAllows] lets a well-formed identifier
    through, [ScopeAllowsCategory] lets its category through. *)
Theorem ScopeAllows_category (scope id : string) :
  ValidateFieldID id = None ->
  ScopeAllows scope id = true ->
  ScopeAllowsCategory scope (prefixBeforeDot id) = true.
Proof.
  intros (c & n & -> & Hc & Hn)%ValidateFieldID_None.
  apply validIDPart_noDot in Hc, Hn.
  rewrite (prefixBeforeDot_app c n Hc).
  unfold ScopeAllows, ScopeAllowsCategory.
  rewrite (scopeLoop_existsb (scopeStep _)) by apply scopeStep_true.
  rewrite (scopeLoop_existsb (scopeCategoryStep _)) by apply scopeCategoryStep_true.
  intros (p & Hin & Hp)%existsb_exists. apply existsb_exists. exists p.
  split; [done|]. apply bool_decide_eq_true. apply bool_decide_eq_true in Hp.
  by apply (scopeStep_category c n).
Qed.

(** The witness of [ScopeAllows_category]: an exact pattern. *)
Lemma ScopeAllows_category_witness :
  ScopeAllowsCategory "financial.*, identity.full_name"
    (prefixBeforeDot "identity.full_name") = true.
Proof.
  apply (ScopeAllows_category "financial.*, identity.full_name" "identity.full_name");
    reflexivity.
Defined.

(** ** Edge cases of the field operations *)

Section edges.
Context `{P : Primitives}.

(** [SetSensitivity] on an identifier that has no row: the call reports
    success as soon as the tier is one of the four, and the database is
    what it was; with any other tier it answers [ErrInvalidTier]. *)
Theorem SetSensitivity_no_row (id tier : string) (v : vault.Vault) (key : list byte) :
  Unlocked v key ->
  store.vault_fields (vault.db v) !! id = None ->
  exists v',
    vault.SetSensitivity id tier v
    = (if vault.validTiers tier then None else Some ErrInvalidTier, v')
    /\ vault.db v' = vault.db v.
Proof.
  intros (s & Hs & Hk) Hrow. unfold vault.SetSensitivity.
  rewrite (requireUnlocked_live v s key Hs Hk).
  destruct (vault.validTiers tier); simpl.
  - eexists. split; [reflexivity|]. simpl.
    unfold store.with_fields. destruct (vault.db v) as [f l t m]. simpl in *.
    f_equal. apply map_eq. intros i. rewrite lookup_alter.
    case_decide as Hi; [|done]. subst i. by rewrite Hrow.
  - eexists. split; [reflexivity|]. done.
Qed.

(** The metadata listings carry no value, not even the ciphertext: every
    entry [List] and [ListByCategory] return has an empty [Value]; [List]
    has one entry per stored row, [ListByCategory] only entries of the
    category asked for; neither call is written to the access log or
    changes the database in any other way. *)
Theorem listings_hide_values (category : string) (v : vault.Vault) (key : list byte) :
  Unlocked v key ->
  exists infos infosC v1 v2,
    vault.List v = (Ok infos, v1)
    /\ vault.ListByCategory category v = (Ok infosC, v2)
    /\ vault.db v1 = vault.db v /\ vault.db v2 = vault.db v
    /\ Forall (fun i => vault.Value i = "") (infos ++ infosC)
    /\ Forall (fun i => vault.Category i = category) infosC
    /\ length infos = store.FieldCount (vault.db v)
    /\ vault.ID <$> infos
       ≡ₚ store.ID <$> (snd <$> map_to_list (store.vault_fields (vault.db v))).
Proof.
  intros (s & Hs & Hk). unfold vault.List, vault.ListByCategory.
  rewrite (requireUnlocked_live v s key Hs Hk). simpl vault.db.
  eexists _, _, _, _. split; [reflexivity|]. split; [reflexivity|].
  split; [done|]. split; [done|].
  unfold store.ListFields, store.ListFieldsByCategory, store.GetAllFields,
    store.GetFieldsByCategory, store.FieldCount.
  split; [|split; [|split]].
  - apply Forall_app. split; apply Forall_fmap, Forall_true; done.
  - rewrite <- list_fmap_compose. apply Forall_fmap.
    eapply Forall_impl with (P := fun f => store.Category f = category).
    + rewrite merge_sort_Permutation. apply Forall_forall.
      by intros f [Hf _]%list_elem_of_filter.
    + done.
  - rewrite !length_fmap.
    rewrite (Permutation_length (merge_sort_Permutation _ _)).
    by rewrite length_fmap, length_map_to_list.
  - rewrite <- !list_fmap_compose.
    rewrite (fmap_Permutation _ _ _ (merge_sort_Permutation _ _)).
    by rewrite <- !list_fmap_compose.
Qed.

End edges.

(** The witness of [SetSensitivity_no_row]. *)
Lemma SetSensitivity_no_row_witness :
  exists v',
    vault.SetSensitivity "identity.nickname" "critical" toy.populated
    = (if vault.validTiers "critical" then None else Some ErrInvalidTier, v')
    /\ vault.db v' = vault.db toy.populated.
Proof.
  apply (SetSensitivity_no_row "identity.nickname" "critical" toy.populated
           (liveKey toy.populated)).
  - apply Unlocked_liveKey. by vm_compute.
  - by vm_compute.
Defined.

(** The witness of [listings_hide_values]. *)
Lemma listings_hide_values_witness :
  exists infos infosC v1 v2,
    vault.List toy.populated = (Ok infos, v1)
    /\ vault.ListByCategory "identity" toy.populated = (Ok infosC, v2)
    /\ vault.db v1 = vault.db toy.populated /\ vault.db v2 = vault.db toy.populated
    /\ Forall (fun i => vault.Value i = "") (infos ++ infosC)
    /\ Forall (fun i => vault.Category i = "identity") infosC
    /\ length infos = store.FieldCount (vault.db toy.populated)
    /\ vault.ID <$> infos
       ≡ₚ store.ID <$> (snd <$> map_to_list (store.vault_fields (vault.db toy.populated))).
Proof.
  apply (listings_hide_values "identity" toy.populated (liveKey toy.populated)).
  apply Unlocked_liveKey. by vm_compute.
Defined.

(** ** The access log only grows *)

Section history.
Context `{P : Primitives}.

Lemma continues_same (d d' : store.DB) :
  store.vault_meta d' = store.vault_meta d
  /\ store.vault_access_log d' = store.vault_access_log d ->
  continues d d'.
Proof. intros [Hm Hl]. split; [done|]. exists []. by rewrite Hl, app_nil_r. Qed.

Lemma continues_trans (d1 d2 d3 : store.DB) :
  continues d1 d2 -> continues d2 d3 -> continues d1 d3.
Proof.
  intros [Hm1 [a1 Hl1]] [Hm2 [a2 Hl2]]. split; [congruence|].
  exists (a1 ++ a2). by rewrite Hl2, Hl1, app_assoc.
Qed.

Lemma continues_LogAccess (e : store.AuditEntry) (v : vault.Vault) :
  continues (vault.db v) (vault.db (vault.LogAccess e v)).
Proof.
  destruct (LogAccess_frame e v) as (_ & _ & _ & _ & Hm).
  split; [done|].
  destruct (LogAccess_log e v) as [Hl|(row & Hl & _)].
  - exists []. by rewrite Hl, app_nil_r.
  - by exists [row].
Qed.

Ltac continue_with Hdb :=
  first
    [ by (apply continues_same; simpl; rewrite ?Hdb)
    | by (eapply continues_trans; [|apply continues_LogAccess];
          apply continues_same; simpl; rewrite ?Hdb) ].

Lemma continues_run (op : Privileged) (v : vault.Vault) :
  continues (vault.db v) (vault.db (snd (run op v))).
Proof.
  destruct op; simpl;
    unfold vault.Set_, vault.Get, vault.List, vault.ListByCategory, vault.GetByCategory,
      vault.GetContext, vault.Delete, vault.SetSensitivity, vault.CreateServiceToken,
      vault.ListServiceTokens, vault.RevokeServiceToken;
    try (destruct (ValidateFieldID id); [by apply continues_same|]);
    destruct (vault.requireUnlocked v) as [[key|e] v1] eqn:Hreq;
    apply requireUnlocked_frame in Hreq as (Hdb & _); try continue_with Hdb.
  - destruct (crypto.DeriveSubkey _ _ _); [|continue_with Hdb].
    destruct (crypto.EncryptToBase64 _ _ _) as [[encrypted|e] r']; [|continue_with Hdb].
    destruct (negb (vault.validTiers _)); [continue_with Hdb|].
    unfold time_Now. cbv beta iota zeta. continue_with Hdb.
  - unfold store.GetField. destruct (store.vault_fields (vault.db v1) !! id);
      [|continue_with Hdb].
    destruct (crypto.DeriveSubkey _ _ _); [|continue_with Hdb].
    destruct (crypto.DecryptFromBase64 _ _); continue_with Hdb.
  - destruct (crypto.DeriveSubkey _ _ _); [|continue_with Hdb].
    destruct (vault.decryptAll _ _); continue_with Hdb.
  - destruct (vault.contextLoop _ _ _ _ _); continue_with Hdb.
  - destruct (negb (vault.validTiers tier)); [continue_with Hdb|].
    unfold store.SetSensitivity, time_Now. continue_with Hdb.
  - unfold rand_Read, time_Now, store.CreateToken. cbv beta iota zeta.
    cbn [vault.db vault.with_clock vault.with_rand store.TokenStr].
    destruct (store.vault_tokens (vault.db v1) !! _); continue_with Hdb.
  - unfold store.DeleteToken.
    destruct (store.vault_tokens (vault.db v1) !! _); simpl; continue_with Hdb.
Qed.

Lemma continues_Step (v v' : vault.Vault) :
  Step v v' -> continues (vault.db v) (vault.db v').
Proof.
  destruct 1.
  - apply continues_run.
  - unfold vault.Unlock. destruct (vault.session v); [by apply continues_same|].
    destruct (negb _); [by apply continues_same|].
    destruct (base64_DecodeString _); [|by apply continues_same].
    destruct (hex.DecodeString _); [|by apply continues_same].
    destruct (negb _); [by apply continues_same|].
    destruct (crypto.DecryptFromBase64 _ _); [|by apply continues_same].
    destruct (negb _); [by apply continues_same|].
    unfold vault.NewSession, rand_Read. cbv beta iota zeta. simpl snd.
    eapply continues_trans; [|apply continues_LogAccess]. by apply continues_same.
  - unfold vault.Lock. destruct (vault.session v); [|by apply continues_same]. simpl.
    eapply continues_trans; [|apply continues_LogAccess]. by apply continues_same.
  - unfold vault.timerFires. destruct (vault.session v); by apply continues_same.
  - unfold vault.TouchSession. destruct (vault.session v); by apply continues_same.
  - apply continues_LogAccess.
  - unfold vault.ValidateServiceToken, store.GetToken.
    destruct (store.vault_tokens (vault.db v) !! _) as [t|]; simpl;
      [|by apply continues_same].
    destruct (_ <? _)%Z; simpl; [by apply continues_same|].
    destruct (negb _); by apply continues_same.
Qed.

(** Over any sequence of calls into the core and timer expiries the
    access log is only ever appended to (no entry is removed, reordered or
    rewritten) and the metadata written by [Init] (the salt, the hash of
    the secret key, the verification ciphertext) never change. *)
Theorem access_log_append_only (v v' : vault.Vault) :
  rtc Step v v' -> continues (vault.db v) (vault.db v').
Proof.
  induction 1 as [v|v1 v2 v3 HS _ IH].
  - by apply continues_same.
  - eapply continues_trans; [by apply continues_Step|done].
Qed.

End history.

(** The witness of [access_log_append_only]: a write, a change of tier
    and a lock on the populated vault. *)
Lemma access_log_append_only_witness :
  continues (vault.db toy.populated)
    (vault.db (vault.Lock
       (snd (run (OpSetSensitivity "identity.full_name" "critical")
          (snd (run (OpSet "identity.dob" "1990-01-01" "sensitive") toy.populated)))))).
Proof.
  apply access_log_append_only.
  eapply rtc_l; [apply step_run|].
  eapply rtc_l; [apply step_run|].
  eapply rtc_l; [apply step_Lock|].
  apply rtc_refl.
Defined.

(** ** Service tokens, from creation to the gate *)

Lemma RFC3339_bounds (t : Z) : (t - second < RFC3339 t <= t)%Z.
Proof.
  unfold RFC3339, second.
  pose proof (Z.mod_pos_bound t 1000000000 ltac:(lia)).
  pose proof (Z.div_mod t 1000000000 ltac:(lia)). lia.
Qed.

Section tokens.
Context `{P : Primitives}.

(** What [ValidateServiceToken] does with a stored row. *)
Lemma ValidateServiceToken_row (tok : string) (v : vault.Vault) (t : store.Token) :
  store.vault_tokens (vault.db v) !! vault.hashServiceToken tok = Some t ->
  fst (vault.ValidateServiceToken tok v)
  = if (store.ExpiresAt t <? nextTime (vault.clock v))%Z then None
    else if String.eqb (store.Usage t) "service" then Some t else None.
Proof.
  intros Ht. unfold vault.ValidateServiceToken, store.GetToken, time_Now, nextTime.
  rewrite Ht. destruct (_ <? _)%Z; [done|].
  by destruct (String.eqb (store.Usage t) "service").
Qed.

(** The life of a service token.  [CreateServiceToken] on an unlocked
    vault hands out 64 hexadecimal characters and stores one new row under
    their SHA-256 hash (the row carries the consumer, the scope, the usage
    [service], and the expiry cut to the second); the field table is not
    touched.  [ValidateServiceToken] then accepts the raw token exactly
    while the clock has not passed the stored expiry: certainly up to one
    second before [ttl] has elapsed, and never after [ttl]. *)
Theorem service_token_lifecycle (consumer scope : string) (ttl0 : Z) (v : vault.Vault)
    (key : list byte) :
  Unlocked v key ->
  let raw := hex.EncodeToString (fst (rand_Read 32 (vault.rand v))) in
  let issuedAt := nextTime (vault.clock v) in
  store.vault_tokens (vault.db v) !! vault.hashServiceToken raw = None ->
  exists v1 row,
    vault.CreateServiceToken consumer scope ttl0 v = (Ok raw, v1)
    /\ String.length raw = 64
    /\ store.vault_tokens (vault.db v1)
       = <[vault.hashServiceToken raw := row]> (store.vault_tokens (vault.db v))
    /\ store.TokenStr row = vault.hashServiceToken raw
    /\ store.TokenConsumer row = consumer
    /\ store.TokenScope row = scope
    /\ store.Usage row = "service"
    /\ store.ExpiresAt row = RFC3339 (issuedAt + ttl0)
    /\ store.vault_fields (vault.db v1) = store.vault_fields (vault.db v)
    /\ fst (vault.ValidateServiceToken raw v1)
       = (if (store.ExpiresAt row <? nextTime (vault.clock v1))%Z then None else Some row)
    /\ ((nextTime (vault.clock v1) <= issuedAt + ttl0 - second)%Z ->
        fst (vault.ValidateServiceToken raw v1) = Some row)
    /\ ((issuedAt + ttl0 < nextTime (vault.clock v1))%Z ->
        fst (vault.ValidateServiceToken raw v1) = None).
Proof.
  intros (s & Hs & Hk) raw issuedAt Hfresh.
  unfold rand_Read in raw. cbn [fst] in raw.
  unfold vault.CreateServiceToken.
  rewrite (requireUnlocked_live v s key Hs Hk).
  unfold time_Now, store.CreateToken. cbv beta iota zeta.
  cbn [vault.db vault.rand vault.clock vault.with_session vault.with_clock vault.with_rand
       store.TokenStr store.TokenConsumer store.TokenScope store.ExpiresAt store.Usage
       store.TokenCreatedAt clockTape clockPos fst snd rand_Read].
  fold raw. rewrite Hfresh.
  match goal with |- context [vault.LogAccess ?e ?w] =>
    destruct (LogAccess_frame e w) as (_ & _ & Lf & Lt & _);
    set (v1 := vault.LogAccess e w) in * end.
  simpl in Lf, Lt.
  eexists v1, _. split; [reflexivity|].
  assert (Hlen : String.length raw = 64).
  { unfold raw. by rewrite hex_EncodeToString_length, length_map, length_seq. }
  split; [done|]. split; [exact Lt|].
  do 5 (split; [reflexivity|]). split; [exact Lf|].
  match type of Lt with _ = <[_ := ?r]> _ => set (row := r) in * end.
  assert (HV : fst (vault.ValidateServiceToken raw v1)
               = if (store.ExpiresAt row <? nextTime (vault.clock v1))%Z
                 then None else Some row).
  { rewrite (ValidateServiceToken_row raw v1 row); [done|].
    rewrite Lt. apply lookup_insert_eq. }
  split; [exact HV|]. rewrite HV.
  pose proof (RFC3339_bounds (issuedAt + ttl0)) as Hb.
  change (store.ExpiresAt row) with (RFC3339 (issuedAt + ttl0)).
  split; intros Ht.
  - destruct (Z.ltb_spec (RFC3339 (issuedAt + ttl0)) (nextTime (vault.clock v1)));
      [lia|done].
  - destruct (Z.ltb_spec (RFC3339 (issuedAt + ttl0)) (nextTime (vault.clock v1)));
      [done|lia].
Qed.

(** The gate turns away every request that carries no credential: without
    a [Bearer] header, or with a token that is neither the live session
    token nor the raw value of a stored service-token row that has not
    expired, the answer is 401 and the handler behind the gate does not
    run: the database and the session are what they were. *)
Theorem gate_rejects (next : api.Ctx -> vault.Vault -> api.Response * vault.Vault)
    (auth : string) (v : vault.Vault) :
  let tok := strings.TrimPrefix auth "Bearer " in
  strings.HasPrefix auth "Bearer " = false
  \/ (vault.ValidateToken tok v = false
      /\ match store.vault_tokens (vault.db v) !! vault.hashServiceToken tok with
         | None => True
         | Some t => (store.ExpiresAt t < nextTime (vault.clock v))%Z
                     \/ store.Usage t <> "service"
         end) ->
  exists msg v',
    api.authMiddleware next auth v = (api.writeError 401 "unauthenticated" msg, v')
    /\ vault.db v' = vault.db v /\ vault.session v' = vault.session v.
Proof.
  intros tok H. unfold api.authMiddleware. fold tok.
  destruct (strings.HasPrefix auth "Bearer ") eqn:Hb; simpl.
  2:{ by eexists _, _. }
  destruct H as [H|[Hv Hrow]]; [done|]. rewrite Hv.
  unfold vault.ValidateServiceToken, store.GetToken, time_Now.
  destruct (store.vault_tokens (vault.db v) !! vault.hashServiceToken tok) as [t|].
  - unfold nextTime in Hrow.
    destruct (Z.ltb_spec (store.ExpiresAt t) (clockTape (vault.clock v) (clockPos (vault.clock v)))).
    + by eexists _, _.
    + destruct Hrow as [Hrow|Hrow]; [lia|].
      apply String.eqb_neq in Hrow. rewrite Hrow. by eexists _, _.
  - by eexists _, _.
Qed.

End tokens.

(** The witness of [service_token_lifecycle]: the token issued on the
    populated vault. *)
Lemma service_token_lifecycle_witness :
  let raw := hex.EncodeToString (fst (rand_Read 32 (vault.rand toy.populated))) in
  exists v1 row,
    vault.CreateServiceToken "life" "identity.*" (24 * 3600 * second) toy.populated
    = (Ok raw, v1)
    /\ String.length raw = 64
    /\ store.vault_tokens (vault.db v1)
       = <[vault.hashServiceToken raw := row]> (store.vault_tokens (vault.db toy.populated))
    /\ store.TokenStr row = vault.hashServiceToken raw
    /\ store.TokenConsumer row = "life"
    /\ store.TokenScope row = "identity.*"
    /\ store.Usage row = "service"
    /\ store.ExpiresAt row
       = RFC3339 (nextTime (vault.clock toy.populated) + 24 * 3600 * second)
    /\ store.vault_fields (vault.db v1) = store.vault_fields (vault.db toy.populated)
    /\ fst (vault.ValidateServiceToken raw v1)
       = (if (store.ExpiresAt row <? nextTime (vault.clock v1))%Z then None else Some row)
    /\ ((nextTime (vault.clock v1)
         <= nextTime (vault.clock toy.populated) + 24 * 3600 * second - second)%Z ->
        fst (vault.ValidateServiceToken raw v1) = Some row)
    /\ ((nextTime (vault.clock toy.populated) + 24 * 3600 * second
         < nextTime (vault.clock v1))%Z ->
        fst (vault.ValidateServiceToken raw v1) = None).
Proof.
  apply (service_token_lifecycle "life" "identity.*" (24 * 3600 * second) toy.populated
           (liveKey toy.populated)).
  - apply Unlocked_liveKey. by vm_compute.
  - by vm_compute.
Defined.

(** The witness of [gate_rejects]: a made-up token at the locked vault. *)
Lemma gate_rejects_witness :
  exists msg v',
    api.authMiddleware (fun _ v => (api.writeJSON 200 (api.StatusBody "ok"), v))
      "Bearer 0000" toy.opened
    = (api.writeError 401 "unauthenticated" msg, v')
    /\ vault.db v' = vault.db toy.opened /\ vault.session v' = vault.session toy.opened.
Proof.
  apply (gate_rejects (fun _ v => (api.writeJSON 200 (api.StatusBody "ok"), v))
           "Bearer 0000" toy.opened).
  right. split; by vm_compute.
Defined.

(** ** Reading the access log *)

#[local] Instance newerEntry_trans : Transitive store.newerEntry.
Proof. unfold store.newerEntry. intros e f g. lia. Qed.

#[local] Instance newerEntry_total : Total store.newerEntry.
Proof. unfold store.newerEntry. intros e f. lia. Qed.

(** [GetAuditLog] with a limit that is not negative: the [limit] newest
    entries, newest first. *)
Lemma GetAuditLog_newest (limit : Z) (d : store.DB) :
  (0 <= limit)%Z ->
  let entries := store.GetAuditLog limit d in
  length entries = Nat.min (Z.to_nat limit) (length (store.vault_access_log d))
  /\ StronglySorted store.newerEntry entries
  /\ exists rest,
       store.vault_access_log d ≡ₚ entries ++ rest
       /\ forall e e', e ∈ entries -> e' ∈ rest -> store.newerEntry e e'.
Proof.
  intros Hl. unfold store.GetAuditLog.
  destruct (Z.ltb_spec limit 0) as [?|_]; [lia|]. cbv zeta.
  match goal with |- context [take _ ?l] => set (sorted := l) end.
  assert (Hperm : sorted ≡ₚ store.vault_access_log d) by apply merge_sort_Permutation.
  assert (Hsorted : StronglySorted store.newerEntry sorted)
    by (apply StronglySorted_merge_sort; apply _).
  rewrite <- (take_drop (Z.to_nat limit) sorted) in Hsorted.
  split; [|split].
  - by rewrite length_take, (Permutation_length Hperm).
  - by apply StronglySorted_app_1_l in Hsorted.
  - exists (drop (Z.to_nat limit) sorted). split.
    + by rewrite take_drop.
    + intros e e'. by apply StronglySorted_app_1_elem_of.
Qed.

Section auditlog.
Context `{P : Primitives}.

(** GET /vault/audit for a session: the answer holds the newest entries of
    the access log, newest first, at most 1000 of them and 50 unless the
    query asks for a positive number; the request itself leaves the vault
    as it was, so reading the log is not logged. *)
Theorem handleAuditLog_window (r : api.Ctx) (limitStr : string) (v : vault.Vault) :
  api.isSessionAuth r = true ->
  let log := store.vault_access_log (vault.db v) in
  exists n entries,
    api.handleAuditLog r limitStr v = (api.writeJSON 200 (api.AuditBody entries), v)
    /\ (1 <= n <= 1000)%Z
    /\ n = match api.Atoi limitStr with
           | Some k => if (0 <? k)%Z then Z.min k 1000 else 50%Z
           | None => 50%Z
           end
    /\ length entries = Nat.min (Z.to_nat n) (length log)
    /\ StronglySorted store.newerEntry entries
    /\ exists rest,
         log ≡ₚ entries ++ rest
         /\ forall e e', e ∈ entries -> e' ∈ rest ->
              (store.CreatedAt e' <= store.CreatedAt e)%Z.
Proof.
  intros Hr log. unfold api.handleAuditLog. rewrite Hr. simpl negb. cbv iota zeta.
  set (limit0 := if String.eqb limitStr "" then 50%Z else _).
  set (n := if (1000 <? limit0)%Z then 1000%Z else limit0).
  assert (Hn : n = match api.Atoi limitStr with
                   | Some k => if (0 <? k)%Z then Z.min k 1000 else 50%Z
                   | None => 50%Z
                   end).
  { unfold n, limit0. destruct (String.eqb_spec limitStr "") as [->|_]; [done|].
    destruct (api.Atoi limitStr) as [k|]; [|done].
    destruct (Z.ltb_spec 0 k); [|done].
    destruct (Z.ltb_spec 1000 k); lia. }
  assert (Hrange : (1 <= n <= 1000)%Z).
  { rewrite Hn. destruct (api.Atoi limitStr) as [k|]; [|lia].
    destruct (Z.ltb_spec 0 k); lia. }
  exists n, (vault.AuditLog n v). split; [done|]. split; [done|]. split; [done|].
  unfold vault.AuditLog.
  destruct (GetAuditLog_newest n (vault.db v)) as (Hlen & Hs & rest & Hp & Hnew); [lia|].
  split; [done|]. split; [done|]. exists rest. split; [done|]. exact Hnew.
Qed.

End auditlog.

(** The witness of [handleAuditLog_window]. *)
Lemma handleAuditLog_window_witness :
  let r := {| api.scopeKey := Some "*"; api.sessionAuthKey := Some true |} in
  let log := store.vault_access_log (vault.db toy.populated) in
  exists n entries,
    api.handleAuditLog r "2" toy.populated
    = (api.writeJSON 200 (api.AuditBody entries), toy.populated)
    /\ (1 <= n <= 1000)%Z
    /\ n = match api.Atoi "2" with
           | Some k => if (0 <? k)%Z then Z.min k 1000 else 50%Z
           | None => 50%Z
           end
    /\ length entries = Nat.min (Z.to_nat n) (length log)
    /\ StronglySorted store.newerEntry entries
    /\ exists rest,
         log ≡ₚ entries ++ rest
         /\ forall e e', e ∈ entries -> e' ∈ rest ->
              (store.CreatedAt e' <= store.CreatedAt e)%Z.
Proof.
  intros r.
  apply (handleAuditLog_window r "2" toy.populated). reflexivity.
Defined.
